(** * objcache: a read-through cache with named groups

    Shallow embedding of [objcache/objcache.go] and verification of its
    get-or-load protocol, its statistics counters, its eviction hook and
    its group registry.

    The model is sequential: the mutexes of the source ([mu], [cache.mu])
    only serialise callers, so a locked region is one atomic step and the
    lock and unlock calls leave no trace in the definitions.

    User code (a [Dispose] method, a getter, a creation hook) is a
    function on the state outside the package: it returns, it does not
    panic, and it does not call back into the group it serves.  Panics of
    the package itself are modelled: the two registry faults, a nil
    pointer or interface that is used, and the type assertions
    [x.(Value)] on a nil interface. *)

From Stdlib Require Import ZArith Lia List String Permutation.
From Stdlib Require Import DecimalString DecimalZ.
From stdpp Require Import base option list gmap strings.

Local Open Scope string_scope.
Local Open Scope list_scope.
Local Open Scope Z_scope.

(** ** Panics

    A Go call either returns or panics.  A panic carries its message and
    no state: nothing in this package recovers from one. *)

Inductive result (A : Type) : Type :=
  | Ok (a : A)
  | Panic (msg : string).
Arguments Ok {A} a.
Arguments Panic {A} msg.

#[global] Instance result_ret : MRet result := fun A a => Ok a.
#[global] Instance result_bind : MBind result := fun A B f m =>
  match m with
  | Ok a => f a
  | Panic msg => Panic msg
  end.

(** Go's [error]: [None] is the nil error, [Some msg] an error value. *)
Definition error := option string.

(** The message of a failed type assertion [x.(Value)] on a nil interface. *)
Definition nil_conversion : string :=
  "interface conversion: interface is nil, not objcache.Value".

(** The message of a method call through a nil pointer. *)
Definition nil_dereference : string :=
  "invalid memory address or nil pointer dereference".

(** ** int64 arithmetic

    The counters are [int64]; Go's signed addition wraps around. *)

Module Int64.
Definition min : Z := - 2 ^ 63.
Definition max : Z := 2 ^ 63 - 1.
Definition wrap (z : Z) : Z := (z + 2 ^ 63) mod 2 ^ 64 - 2 ^ 63.
Definition add (a b : Z) : Z := wrap (a + b).
Definition in_range (z : Z) : Prop := min <= z <= max.
End Int64.

(** [type AtomicInt int64], with [Add] and [Get].  In the sequential model
    an atomic add is an add. *)
Definition AtomicInt := Z.
Definition AtomicInt_Add (i : AtomicInt) (n : Z) : AtomicInt := Int64.add i n.
Definition AtomicInt_Get (i : AtomicInt) : Z := i.

(** [strconv.FormatInt(i.Get(), 10)]: the decimal numeral of the value,
    with a minus sign when it is negative.  [strconv] is Go's standard
    library; its base-10 printer is Stdlib's. *)
Definition AtomicInt_String (i : AtomicInt) : string :=
  NilZero.string_of_int (Z.to_int (AtomicInt_Get i)).

(** [type Stats struct { Gets, CacheHits AtomicInt }] *)
Module Stats.
Record t := mk { Gets : AtomicInt; CacheHits : AtomicInt }.
Definition zero : t := mk 0 0.
End Stats.

(** [type CacheStats struct { Items, Gets, Hits, Evictions int64 }] *)
Module CacheStats.
Record t := mk { Items : Z; Gets : Z; Hits : Z; Evictions : Z }.
End CacheStats.

(** ** The bounded cache [lru]

    Modelled from the spec: the package [objcache/lru] ([lru.New],
    [lru.Cache.Add], [lru.Cache.Get], [lru.Cache.Len] and the field
    [OnEvicted]) is imported by objcache.go and is not part of the
    sources at hand.  The spec describes it as a fixed-capacity
    key-to-value store with an eviction policy and an eviction hook:
    - [New] takes the maximum entry count;
    - the hook is invoked synchronously with the evicted key and value
      whenever an entry is removed "by policy", that is, when the capacity
      is exceeded or when an overwrite displaces the old value;
    - with capacity N, inserting N+1 distinct keys leaves N entries and
      triggers one eviction;
    - lookup and insert do not fail.
    The spec leaves the victim to the policy; the package name fixes it as
    least recently used, so entries are kept most recent first, a hit
    moves its entry to the front and the victim is the last entry.  The
    spec gives a capacity of zero no meaning of its own: by the count
    rule a cache of capacity zero (or less) holds nothing, and the entry
    just added is the one evicted.

    Values are stored as [interface{}]: [iface] is a dynamic value of
    type [A] or nil.  [S] is the state the hook acts on; a hook may
    panic. *)

Module lru.
Section Cache.
Context {A S : Type}.

(** [lru.Key] is [interface{}]; objcache only ever passes strings. *)
Definition Key := string.

Definition iface := option A.

Record entry := mkEntry { key : Key; value : iface }.

Record Cache := mkCache {
  MaxEntries : Z;
  OnEvicted : option (Key -> iface -> S -> result S);
  ll : list entry
}.

Definition set_ll (l : list entry) (c : Cache) : Cache :=
  mkCache (MaxEntries c) (OnEvicted c) l.
Definition set_OnEvicted (f : option (Key -> iface -> S -> result S)) (c : Cache) : Cache :=
  mkCache (MaxEntries c) f (ll c).

Definition New (maxEntries : Z) : Cache := mkCache maxEntries None [].

(** The value stored under [k], first match from the front. *)
Fixpoint find (k : Key) (l : list entry) : option iface :=
  match l with
  | [] => None
  | e :: l' => if String.eqb (key e) k then Some (value e) else find k l'
  end.

(** Unlink the entry [find] returns. *)
Fixpoint remove (k : Key) (l : list entry) : list entry :=
  match l with
  | [] => []
  | e :: l' => if String.eqb (key e) k then l' else e :: remove k l'
  end.

(** Split off the oldest entry, the last of the list. *)
Fixpoint pop_oldest (l : list entry) : option (list entry * entry) :=
  match l with
  | [] => None
  | e :: l' =>
      match pop_oldest l' with
      | None => Some ([], e)
      | Some (rest, old) => Some (e :: rest, old)
      end
  end.

(** The eviction notification. *)
Definition notify (c : Cache) (e : entry) (s : S) : result S :=
  match OnEvicted c with
  | Some f => f (key e) (value e) s
  | None => Ok s
  end.

Definition Len (c : Cache) : Z := Z.of_nat (length (ll c)).

Definition RemoveOldest (c : Cache) (s : S) : result (Cache * S) :=
  match pop_oldest (ll c) with
  | None => Ok (c, s)
  | Some (rest, old) =>
      s' ← notify c old s;
      Ok (set_ll rest c, s')
  end.

Definition Add (k : Key) (v : iface) (c : Cache) (s : S) : result (Cache * S) :=
  match find k (ll c) with
  | Some old =>
      (* overwrite: the old value is displaced and reported *)
      s' ← notify c (mkEntry k old) s;
      Ok (set_ll (mkEntry k v :: remove k (ll c)) c, s')
  | None =>
      let c' := set_ll (mkEntry k v :: ll c) c in
      if MaxEntries c' <? Len c' then RemoveOldest c' s else Ok (c', s)
  end.

(** The entry a call of [Add] reports to the hook, if it reports one. *)
Definition victim (k : Key) (v : iface) (c : Cache) : option entry :=
  match find k (ll c) with
  | Some old => Some (mkEntry k old)
  | None =>
      if MaxEntries c <? Z.of_nat (length (mkEntry k v :: ll c))
      then snd <$> pop_oldest (mkEntry k v :: ll c)
      else None
  end.

Definition Get (k : Key) (c : Cache) : iface * bool * Cache :=
  match find k (ll c) with
  | Some v => (v, true, set_ll (mkEntry k v :: remove k (ll c)) c)
  | None => (None, false, c)
  end.
End Cache.
End lru.

Arguments lru.entry : clear implicits.
Arguments lru.Cache : clear implicits.

(** ** objcache.go *)

Section objcache.
(** [V] are the dynamic values that implement the interface [Value]
    and [World] is the state outside the package, the one user code
    (a [Dispose] method, a getter, a creation hook) acts on. *)
Context {V World : Type}.

(** [Dispose() error], the method of the interface [Value]. *)
Context (Dispose : V -> World -> World * error).

(** A variable of interface type [Value] holds a value or nil. *)
Definition Value := option V.

(** Calls into user code are recorded, in order, next to the world they
    act on: the record tells how often and on what a callback ran. *)
Inductive Call :=
  | CallGetter (key : string)
  | CallDispose (v : V)
  | CallHook (g : nat).

Record Env := mkEnv { world : World; calls : list Call }.

Definition call_Dispose (v : V) (env : Env) : error * Env :=
  let '(w, err) := Dispose v (world env) in
  (err, mkEnv w (calls env ++ [CallDispose v])).

(** [Getter.Get(key string) (val Value, err error)] *)
Definition GetterFunc := string -> World -> (Value * error) * World.
Definition GetterFunc_Get (f : GetterFunc) (key : string) (w : World) :
  (Value * error) * World := f key w.

(** A variable of interface type [Getter]: an implementation or nil. *)
Definition Getter := option GetterFunc.

Definition call_Getter (f : GetterFunc) (key : string) (env : Env) :
  (Value * error) * Env :=
  let '(r, w) := GetterFunc_Get f key (world env) in
  (r, mkEnv w (calls env ++ [CallGetter key])).

(** *** The cache wrapper *)

(** The eviction closure of [init] captures the wrapper [c] and touches
    [c.nevict] and, through [Dispose], the world: that pair is the state
    the bounded cache threads through its hook. *)
Definition HookState := (Z * Env)%type.

Record cache := mkCacheW {
  lru : option (lru.Cache V HookState);   (* [*lru.Cache], nil before [init] *)
  nhit : Z;
  nget : Z;
  nevict : Z
}.

Definition zero_cache : cache := mkCacheW None 0 0 0.

Definition cache_itemsLocked (c : cache) : result Z :=
  match lru c with
  | None => Panic nil_dereference
  | Some l => Ok (lru.Len l)
  end.

Definition cache_items (c : cache) : result Z := cache_itemsLocked c.

Definition cache_stats (c : cache) : result CacheStats.t :=
  items ← cache_itemsLocked c;
  Ok (CacheStats.mk items (nget c) (nhit c) (nevict c)).

(** [func(key lru.Key, value interface{}) { value.(Value).Dispose(); c.nevict++ }] *)
Definition onEvicted (key : lru.Key) (value : Value) (s : HookState) : result HookState :=
  match value with
  | None => Panic nil_conversion
  | Some v =>
      let '(_, env) := call_Dispose v s.2 in
      Ok (Int64.add s.1 1, env)
  end.

Definition cache_init (cacheNum : Z) (c : cache) : cache :=
  mkCacheW (Some (lru.set_OnEvicted (Some onEvicted) (lru.New cacheNum)))
           (nhit c) (nget c) (nevict c).

Definition cache_add (key : string) (value : Value) (c : cache) (env : Env) :
  result (cache * Env) :=
  match lru c with
  | None => Panic nil_dereference
  | Some l =>
      '(l', (n, env')) ← lru.Add key value l (nevict c, env);
      Ok (mkCacheW (Some l') (nhit c) (nget c) n, env')
  end.

Definition cache_get (key : string) (c : cache) : result (Value * bool * cache) :=
  let nget' := Int64.add (nget c) 1 in
  match lru c with
  | None => Panic nil_dereference
  | Some l =>
      let '(v, ok, l') := lru.Get key l in
      if ok then
        match v with
        | None => Panic nil_conversion
        | Some x => Ok (Some x, true, mkCacheW (Some l') (Int64.add (nhit c) 1) nget' (nevict c))
        end
      else Ok (None, false, mkCacheW (Some l') (nhit c) nget' (nevict c))
  end.

(** *** Groups *)

Record Group := mkGroup {
  name : string;
  getter : Getter;
  mainCache : cache;
  Stats : Stats.t
}.

Definition Group_Name (g : Group) : string := name g.

Definition Group_CacheStats (g : Group) : result CacheStats.t :=
  cache_stats (mainCache g).

Definition Group_Get (key : string) (g : Group) (env : Env) :
  result ((Value * error) * Group * Env) :=
  let stats1 := Stats.mk (AtomicInt_Add (Stats.Gets (Stats g)) 1) (Stats.CacheHits (Stats g)) in
  '(val, ok, c) ← cache_get key (mainCache g);
  if (ok : bool) then
    let stats2 := Stats.mk (Stats.Gets stats1) (AtomicInt_Add (Stats.CacheHits stats1) 1) in
    Ok ((val, None), mkGroup (name g) (getter g) c stats2, env)
  else
    match getter g with
    | None => Panic nil_dereference
    | Some f =>
        let '((val, err), env1) := call_Getter f key env in
        match err with
        | None =>
            '(c', env2) ← cache_add key val c env1;
            Ok ((val, err), mkGroup (name g) (getter g) c' stats1, env2)
        | Some _ => Ok ((val, err), mkGroup (name g) (getter g) c stats1, env1)
        end
    end.

(** *** The registry *)

(** A [*Group]: groups live on a heap that only grows. *)
Definition loc := nat.

(** [func(g *Group)], a creation hook: user code that receives the new
    pointer, may read the program state of the moment it runs in (the
    registry and the heap) and acts on the world. *)
Definition Hook := loc -> gmap string loc -> list Group -> World -> World.

Record State := mkState {
  newGroupHook : option Hook;
  groups : gmap string loc;
  heap : list Group;
  env : Env
}.

Definition call_Hook (fn : Hook) (g : loc) (σ : State) : Env :=
  mkEnv (fn g (groups σ) (heap σ) (world (env σ))) (calls (env σ) ++ [CallHook g]).

(** [g := &Group{name: name, getter: getter}; g.mainCache.init(cacheNum)] *)
Definition new_Group (name : string) (cacheNum : Z) (getter : Getter) : Group :=
  mkGroup name getter (cache_init cacheNum zero_cache) Stats.zero.

Definition RegisterNewGroupHook (fn : option Hook) (σ : State) : result State :=
  match newGroupHook σ with
  | Some _ => Panic "RegisterNewGroupHook called more than once"
  | None => Ok (mkState fn (groups σ) (heap σ) (env σ))
  end.

Definition GetGroup (name : string) (σ : State) : option loc := groups σ !! name.

Definition NewGroup (name : string) (cacheNum : Z) (getter : Getter) (σ : State) :
  result (loc * State) :=
  match groups σ !! name with
  | Some _ => Panic ("duplicate registration of group " +:+ name)
  | None =>
      let g := length (heap σ) in
      let σ1 := mkState (newGroupHook σ) (groups σ)
                  (heap σ ++ [new_Group name cacheNum getter]) (env σ) in
      let σ2 := match newGroupHook σ1 with
                | Some fn => mkState (newGroupHook σ1) (groups σ1) (heap σ1) (call_Hook fn g σ1)
                | None => σ1
                end in
      Ok (g, mkState (newGroupHook σ2) (<[name := g]> (groups σ2)) (heap σ2) (env σ2))
  end.

(** *** Vocabulary of the statements *)

(** The resident entries, most recently used first, and the value
    resident under a key. *)
Definition entries (c : cache) : list (lru.entry V) :=
  match lru c with
  | Some l => lru.ll l
  | None => []
  end.

Definition cache_lookup (key : string) (c : cache) : option Value :=
  lru.find key (entries c).

Definition resident (key : string) (g : Group) : Prop :=
  is_Some (cache_lookup key (mainCache g)).

(** A wrapper set up by [init]: the bounded cache exists and carries the
    eviction closure. *)
Definition installed (c : cache) : Prop :=
  exists l, lru c = Some l /\ lru.OnEvicted l = Some onEvicted.

(** A wrapper set up by [init] whose resident values are values, none
    of them the nil interface. *)
Definition cache_ok (c : cache) : Prop :=
  installed c /\ Forall (fun e => is_Some (lru.value e)) (entries c).

(** A getter that keeps the contract of the interface: without an error
    it returns a value. *)
Definition honest (f : GetterFunc) : Prop :=
  forall key w, (f key w).1.2 = None -> is_Some (f key w).1.1.

(** The entry made of a key and a value. *)
Definition entry_of (kv : string * V) : lru.entry V := lru.mkEntry kv.1 (Some kv.2).

(** [n] times [counter++]. *)
Definition incr (n : nat) (counter : Z) : Z :=
  Nat.iter n (fun z => Int64.add z 1) counter.

(** Successive calls of [Dispose], of [cache.add], of [Group.Get] and of
    [NewGroup]. *)
Fixpoint dispose_all (vs : list V) (env : Env) : Env :=
  match vs with
  | [] => env
  | v :: vs' => dispose_all vs' (call_Dispose v env).2
  end.

Fixpoint cache_adds (kvs : list (string * V)) (c : cache) (env : Env) :
  result (cache * Env) :=
  match kvs with
  | [] => Ok (c, env)
  | (key, v) :: kvs' =>
      '(c', env') ← cache_add key (Some v) c env;
      cache_adds kvs' c' env'
  end.

Fixpoint Group_Gets (keys : list string) (g : Group) (env : Env) :
  result (Group * Env) :=
  match keys with
  | [] => Ok (g, env)
  | key :: keys' =>
      '(_, g', env') ← Group_Get key g env;
      Group_Gets keys' g' env'
  end.

Fixpoint NewGroups (specs : list (string * Z * Getter)) (σ : State) :
  result (list loc * State) :=
  match specs with
  | [] => Ok ([], σ)
  | (name, cacheNum, getter) :: specs' =>
      '(g, σ1) ← NewGroup name cacheNum getter σ;
      '(gs, σ2) ← NewGroups specs' σ1;
      Ok (g :: gs, σ2)
  end.

(** The two counter paths agree. *)
Definition parity (g : Group) : Prop :=
  Stats.Gets (Stats g) = nget (mainCache g) /\
  Stats.CacheHits (Stats g) = nhit (mainCache g).

(** The counters of a wrapper set up by [init] after [n] lookups, none of
    them wrapped around: every lookup was a hit or a miss, and every
    eviction followed a miss. *)
Definition counted (n : Z) (c : cache) : Prop :=
  installed c /\ nget c = n /\ 0 <= nhit c /\ 0 <= nevict c /\ nhit c + nevict c <= n.

(** The group [NewGroup] makes for a specification, and the names of a
    list of specifications. *)
Definition group_of (spec : string * Z * Getter) : Group :=
  new_Group spec.1.1 spec.1.2 spec.2.

Definition names_of (specs : list (string * Z * Getter)) : list string :=
  (fun spec => spec.1.1) <$> specs.

(** [kept key s s']: a run of [Get] calls leads from [s] to [s'] and
    [key] is resident after each of them. *)
Inductive kept (key : string) : Group * Env -> Group * Env -> Prop :=
  | kept_refl s : kept key s s
  | kept_step g env key' r g1 env1 s' :
      Group_Get key' g env = Ok (r, g1, env1) ->
      resident key g1 ->
      kept key (g1, env1) s' ->
      kept key (g, env) s'.

(** *** Calls through a pointer, and runs of the program *)

(** [g.Get(key)] for a pointer [g] to a live group: the group on the heap
    is updated in place.  (A pointer that is not on the heap does not
    exist in Go; the nil pointer, which [GetGroup] returns for an unknown
    name, panics when used.) *)
Definition Get_at (g : loc) (key : string) (σ : State) :
  result ((Value * error) * State) :=
  match heap σ !! g with
  | None => Panic nil_dereference
  | Some G =>
      '(r, G', env') ← Group_Get key G (env σ);
      Ok (r, mkState (newGroupHook σ) (groups σ) (<[g := G']> (heap σ)) env')
  end.

(** [GetGroup(name).Get(key)] *)
Definition Get_by_name (name key : string) (σ : State) :
  result ((Value * error) * State) :=
  match GetGroup name σ with
  | None => Panic nil_dereference
  | Some g => Get_at g key σ
  end.

(** One returning call of the package by its user: a hook registration,
    a group creation, or a [Get] through a pointer. *)
Inductive step : State -> State -> Prop :=
  | step_hook fn σ σ' :
      RegisterNewGroupHook fn σ = Ok σ' -> step σ σ'
  | step_new name cacheNum getter g σ σ' :
      NewGroup name cacheNum getter σ = Ok (g, σ') -> step σ σ'
  | step_get g key r σ σ' :
      Get_at g key σ = Ok (r, σ') -> step σ σ'.

(** The registry at process start. *)
Definition start (env : Env) : State := mkState None ∅ [] env.

(** The registry is in order: every registered pointer is live and
    leads to the group of that name, and no pointer has two names. *)
Definition registry_ok (σ : State) : Prop :=
  (forall name g, groups σ !! name = Some g ->
     exists G, heap σ !! g = Some G /\ Group_Name G = name) /\
  (forall name1 name2 g,
     groups σ !! name1 = Some g -> groups σ !! name2 = Some g -> name1 = name2).

(** How often the record of calls shows the getter, [Dispose], the hook. *)
Fixpoint getter_calls (cs : list Call) : nat :=
  match cs with
  | [] => 0
  | CallGetter _ :: cs' => S (getter_calls cs')
  | _ :: cs' => getter_calls cs'
  end.

Fixpoint dispose_calls (cs : list Call) : nat :=
  match cs with
  | [] => 0
  | CallDispose _ :: cs' => S (dispose_calls cs')
  | _ :: cs' => dispose_calls cs'
  end.

(** The number of resident entries. *)
Definition resident_count (c : cache) : Z := Z.of_nat (length (entries c)).
End objcache.

(** ** A concrete instance

    Values are named, the world is the list of the names disposed so far
    (a [Dispose] that marks its value), and a value named "bad" reports a
    failure from [Dispose]. *)

Module Demo.
Definition V := string.
Definition World := list string.

Definition Dispose (v : V) (w : World) : World * error :=
  ((w ++ [v])%list, if String.eqb v "bad" then Some "dispose failed" else None).

(** A getter that knows no key "x", loads "bad" for "b" and [val:key]
    for any other key. *)
Definition loader : @GetterFunc V World := fun key w =>
  if String.eqb key "x" then ((None, Some "not found"), w)
  else if String.eqb key "b" then ((Some "bad", None), w)
  else ((Some ("val:" +:+ key), None), w).

(** A getter that always fails. *)
Definition failing : @GetterFunc V World := fun key w =>
  ((None, Some "not found"), w).

(** A getter that fails while nothing has been tried yet, notes the
    attempt in the world, and succeeds from then on. *)
Definition flaky : @GetterFunc V World := fun key w =>
  match w with
  | [] => ((None, Some "busy"), ["tried"])
  | _ => ((Some ("val:" +:+ key), None), w)
  end.

(** A getter that reports success and returns the nil [Value]. *)
Definition hollow : @GetterFunc V World := fun key w => ((None, None), w).

Definition env0 : @Env V World := mkEnv [] [].

Definition fresh (cacheNum : Z) (f : @GetterFunc V World) : @Group V World :=
  mkGroup "demo" (Some f) (cache_init Dispose cacheNum zero_cache) Stats.zero.

(** A hook that notes whether the group named "a" is registered when it
    runs. *)
Definition probe : @Hook V World := fun g reg h w =>
  (w ++ [match reg !! "a" with Some _ => "registered" | None => "unregistered" end])%list.

Definition state0 : @State V World := mkState None ∅ [] env0.

(** The empty registry with [probe] installed. *)
Definition hooked : @State V World := mkState (Some probe) ∅ [] env0.

(** A wrapper as [init] sets it up, with given entries and counters. *)
Definition cache_with (cap : Z) (es : list (lru.entry V)) (nhit nget nevict : Z) :
  @cache V World :=
  mkCacheW (Some (lru.mkCache cap (Some (onEvicted Dispose)) es)) nhit nget nevict.

Definition entry (key : string) (v : V) : lru.entry V := lru.mkEntry key (Some v).

(** The group [fresh 2 loader] after [Get "a"], and then after [Get "c"]. *)
Definition g1 : @Group V World :=
  mkGroup "demo" (Some loader) (cache_with 2 [entry "a" "val:a"] 0 1 0) (Stats.mk 1 0).
Definition env1 : @Env V World := mkEnv [] [CallGetter "a"].
Definition g2 : @Group V World :=
  mkGroup "demo" (Some loader)
    (cache_with 2 [entry "c" "val:c"; entry "a" "val:a"] 0 2 0) (Stats.mk 2 0).
Definition env2 : @Env V World := mkEnv [] [CallGetter "a"; CallGetter "c"].

(** The same group after a further [Get "a"], a hit. *)
Definition g3 : @Group V World :=
  mkGroup "demo" (Some loader)
    (cache_with 2 [entry "a" "val:a"; entry "c" "val:c"] 1 3 0) (Stats.mk 3 1).

(** A full cache of capacity one whose only value fails to dispose. *)
Definition full : lru.Cache V (@HookState V World) :=
  lru.mkCache 1 (Some (onEvicted Dispose)) [entry "b" "bad"].

(** The registry after [probe] was installed and "a" was created. *)
Definition state1 : @State V World :=
  mkState (Some probe) {["a" := 0%nat]} [new_Group Dispose "a" 2 (Some loader)]
    (mkEnv ["unregistered"] [CallHook 0%nat]).
End Demo.

(** * Verification *)

(** ** Wrap-around arithmetic *)

Lemma wrap_in_range z : Int64.in_range (Int64.wrap z).
Proof.
  unfold Int64.in_range, Int64.wrap, Int64.min, Int64.max.
  pose proof (Z.mod_pos_bound (z + 2 ^ 63) (2 ^ 64) ltac:(lia)). lia.
Qed.

Lemma wrap_small z : Int64.in_range z -> Int64.wrap z = z.
Proof.
  unfold Int64.in_range, Int64.wrap, Int64.min, Int64.max. intros Hz.
  rewrite Z.mod_small; lia.
Qed.

Lemma add_wrap_l a b : Int64.add (Int64.wrap a) b = Int64.wrap (a + b).
Proof.
  unfold Int64.add, Int64.wrap. f_equal.
  replace ((a + 2 ^ 63) mod 2 ^ 64 - 2 ^ 63 + b + 2 ^ 63)
    with ((a + 2 ^ 63) mod 2 ^ 64 + b) by lia.
  rewrite Zplus_mod_idemp_l. f_equal. lia.
Qed.

Lemma add_small a b : Int64.in_range (a + b) -> Int64.add a b = a + b.
Proof. apply wrap_small. Qed.

(** ** The bounded cache *)

Section lru_facts.
Context {A : Type}.
Implicit Types (l rest : list (lru.entry A)) (e old : lru.entry A) (k : string).

Lemma find_cons_eq k v l : lru.find k (lru.mkEntry k v :: l) = Some v.
Proof. simpl. by rewrite String.eqb_refl. Qed.

Lemma find_cons_ne k k' v l :
  k <> k' -> lru.find k' (lru.mkEntry k v :: l) = lru.find k' l.
Proof. intros Hne. simpl. by apply String.eqb_neq in Hne as ->. Qed.

Lemma find_front k k' v l :
  lru.find k l = Some v ->
  lru.find k' (lru.mkEntry k v :: lru.remove k l) = lru.find k' l.
Proof.
  intros Hf. destruct (decide (k = k')) as [<-|Hne].
  { by rewrite find_cons_eq. }
  rewrite find_cons_ne by done. clear Hf.
  induction l as [|e l IH]; simpl; [done|].
  destruct (String.eqb_spec (lru.key e) k) as [Hk|Hk].
  - subst k. by apply String.eqb_neq in Hne as ->.
  - simpl. rewrite IH. done.
Qed.

Lemma front_Permutation k v l :
  lru.find k l = Some v -> Permutation (lru.mkEntry k v :: lru.remove k l) l.
Proof.
  induction l as [|e l IH]; simpl; [done|].
  destruct (String.eqb_spec (lru.key e) k) as [Hk|Hk].
  - intros [= <-]. subst k. by destruct e.
  - intros Hf. rewrite perm_swap. by constructor; apply IH.
Qed.

Lemma pop_oldest_None l : lru.pop_oldest l = None -> l = [].
Proof.
  destruct l as [|e l]; simpl; [done|].
  by destruct (lru.pop_oldest l) as [[??]|].
Qed.

Lemma pop_oldest_Some l rest old :
  lru.pop_oldest l = Some (rest, old) -> l = rest ++ [old].
Proof.
  revert rest. induction l as [|e l IH]; simpl; intros rest; [done|].
  destruct (lru.pop_oldest l) as [[rest' old']|] eqn:Hp.
  - intros [= <- <-]. by rewrite (IH rest').
  - intros [= <- <-]. by rewrite (pop_oldest_None l).
Qed.

Lemma pop_oldest_snoc rest old : lru.pop_oldest (rest ++ [old]) = Some (rest, old).
Proof.
  induction rest as [|e rest IH]; simpl; [done|]. by rewrite IH.
Qed.

Lemma find_snoc_None k rest old :
  lru.find k (rest ++ [old]) = None -> lru.find k rest = None.
Proof.
  induction rest as [|e rest IH]; simpl; [done|].
  by destruct (String.eqb (lru.key e) k).
Qed.

(** Dropping the oldest entry loses at most the binding of its key. *)
Lemma find_drop_oldest k rest old v :
  lru.find k rest = Some v -> lru.find k (rest ++ [old]) = Some v.
Proof.
  induction rest as [|e rest IH]; simpl; [done|].
  by destruct (String.eqb (lru.key e) k).
Qed.

Lemma find_None_keys k l : lru.find k l = None <-> k ∉ map lru.key l.
Proof.
  induction l as [|e l IH]; simpl.
  - split; [intros _; apply not_elem_of_nil|done].
  - rewrite not_elem_of_cons.
    destruct (String.eqb_spec (lru.key e) k) as [Hk|Hk]; split.
    + done.
    + intros [? _]. congruence.
    + intros Hf. split; [congruence|]. by apply IH.
    + intros [_ ?]. by apply IH.
Qed.
End lru_facts.

(** ** The cache wrapper *)

Section cache_facts.
Context {V World : Type} (Dispose : V -> World -> World * error).
Implicit Types (c : @cache V World) (env : @Env V World) (v x : V)
  (l : lru.Cache V (@HookState V World)) (key : string).

Lemma call_Dispose_env v env :
  (call_Dispose Dispose v env).2 =
  mkEnv (Dispose v (world env)).1 (calls env ++ [CallDispose v]).
Proof. unfold call_Dispose. by destruct (Dispose v (world env)). Qed.

Lemma onEvicted_value key v (s : @HookState V World) :
  onEvicted Dispose key (Some v) s =
  Ok (Int64.add s.1 1, (call_Dispose Dispose v s.2).2).
Proof. unfold onEvicted. by destruct (call_Dispose Dispose v s.2). Qed.

Lemma calls_dispose_all vs env :
  calls (dispose_all Dispose vs env) = calls env ++ map CallDispose vs.
Proof.
  revert env. induction vs as [|v vs IH]; intros env; simpl.
  - by rewrite app_nil_r.
  - rewrite IH, call_Dispose_env. simpl. by rewrite <- app_assoc.
Qed.

(** The three ways of [cache.add]: room left, capacity exceeded,
    overwrite. *)
Lemma cache_add_room key (value : Value) c env l :
  lru c = Some l ->
  lru.find key (lru.ll l) = None ->
  Z.of_nat (S (length (lru.ll l))) <= lru.MaxEntries l ->
  cache_add key value c env =
  Ok (mkCacheW (Some (lru.set_ll (lru.mkEntry key value :: lru.ll l) l))
        (nhit c) (nget c) (nevict c), env).
Proof.
  intros Hl Hf Hlen. unfold cache_add, lru.Add. rewrite Hl, Hf. simpl.
  unfold lru.Len. simpl.
  destruct (Z.ltb_spec (lru.MaxEntries l) (Z.of_nat (S (length (lru.ll l))))); [lia|done].
Qed.

Lemma cache_add_evict key (value : Value) c env l rest k0 x :
  lru c = Some l ->
  lru.OnEvicted l = Some (onEvicted Dispose) ->
  lru.find key (lru.ll l) = None ->
  lru.MaxEntries l < Z.of_nat (S (length (lru.ll l))) ->
  lru.mkEntry key value :: lru.ll l = rest ++ [lru.mkEntry k0 (Some x)] ->
  cache_add key value c env =
  Ok (mkCacheW (Some (lru.set_ll rest l)) (nhit c) (nget c) (Int64.add (nevict c) 1),
      (call_Dispose Dispose x env).2).
Proof.
  intros Hl Hh Hf Hlen Hsplit. unfold cache_add, lru.Add. rewrite Hl, Hf. simpl.
  unfold lru.Len. simpl.
  destruct (Z.ltb_spec (lru.MaxEntries l) (Z.of_nat (S (length (lru.ll l))))); [|lia].
  unfold lru.RemoveOldest. simpl lru.ll. rewrite Hsplit, pop_oldest_snoc. simpl.
  unfold lru.notify. simpl. rewrite Hh, onEvicted_value. done.
Qed.

Lemma cache_add_overwrite key (value : Value) c env l x :
  lru c = Some l ->
  lru.OnEvicted l = Some (onEvicted Dispose) ->
  lru.find key (lru.ll l) = Some (Some x) ->
  cache_add key value c env =
  Ok (mkCacheW (Some (lru.set_ll (lru.mkEntry key value :: lru.remove key (lru.ll l)) l))
        (nhit c) (nget c) (Int64.add (nevict c) 1),
      (call_Dispose Dispose x env).2).
Proof.
  intros Hl Hh Hf. unfold cache_add, lru.Add. rewrite Hl, Hf. simpl.
  unfold lru.notify. simpl. rewrite Hh, onEvicted_value. done.
Qed.

Lemma find_holds_value key l (value : Value) :
  Forall (fun e => is_Some (lru.value e)) (lru.ll l) ->
  lru.find key (lru.ll l) = Some value -> is_Some value.
Proof.
  intros Hall Hf. apply front_Permutation in Hf.
  rewrite <- Hf in Hall. by inversion Hall.
Qed.

(** [cache.add] of a value on a wrapper in order returns, and accounts
    for every entry that left the cache. *)
Lemma cache_add_ok key v c env :
  cache_ok Dispose c ->
  exists c' env' (evicted : list (string * V)),
    cache_add key (Some v) c env = Ok (c', env') /\
    lru.mkEntry key (Some v) :: entries c ≡ₚ entries c' ++ map entry_of evicted /\
    (length evicted <= 1)%nat /\
    env' = dispose_all Dispose (map snd evicted) env /\
    nevict c' = incr (length evicted) (nevict c) /\
    nhit c' = nhit c /\ nget c' = nget c /\
    lru.MaxEntries <$> lru c' = lru.MaxEntries <$> lru c /\
    cache_ok Dispose c'.
Proof.
  intros [(l & Hl & Hh) Hall]. unfold cache_ok, installed, entries in *.
  rewrite Hl in Hall.
  destruct (lru.find key (lru.ll l)) as [old|] eqn:Hf.
  - destruct (find_holds_value _ _ _ Hall Hf) as [x ->].
    eexists _, _, [(key, x)].
    split; [by eapply cache_add_overwrite|]. simpl. rewrite Hl. simpl.
    pose proof (front_Permutation _ _ _ Hf) as Hp.
    split_and!; try done.
    + rewrite <- Hp at 1. constructor. apply Permutation_cons_append.
    + by eexists.
    + rewrite <- Hp in Hall. inversion Hall; subst. by constructor.
  - destruct (Z.le_gt_cases (Z.of_nat (S (length (lru.ll l)))) (lru.MaxEntries l))
      as [Hroom|Hfull].
    + eexists _, _, [].
      split; [by eapply cache_add_room|]. simpl. rewrite Hl, app_nil_r. simpl.
      split_and!; try done.
      * lia.
      * by eexists.
      * by constructor.
    + destruct (lru.pop_oldest (lru.mkEntry key (Some v) :: lru.ll l))
        as [[rest old]|] eqn:Hp; [|by apply pop_oldest_None in Hp].
      apply pop_oldest_Some in Hp.
      assert (Hall' : Forall (fun e => is_Some (lru.value e)) (rest ++ [old])).
      { rewrite <- Hp. by constructor. }
      apply Forall_app in Hall' as [Hrest Hold].
      inversion Hold as [|? ? [x Hx] _]; subst. destruct old as [k0 value0].
      simpl in Hx. subst value0.
      eexists _, _, [(k0, x)].
      split; [by eapply cache_add_evict; [done|done|done|lia|done]|]. simpl.
      rewrite Hl. simpl. split_and!; try done.
      * by rewrite Hp.
      * by eexists.
Qed.

Lemma cache_ok_init cacheNum c : cache_ok Dispose (cache_init Dispose cacheNum c).
Proof. split; [by eexists|by constructor]. Qed.

Lemma cache_adds_app kvs1 kvs2 c env :
  cache_adds (kvs1 ++ kvs2) c env =
  '(c', env') ← cache_adds kvs1 c env; cache_adds kvs2 c' env'.
Proof.
  revert c env. induction kvs1 as [|[key v] kvs1 IH]; intros c env; simpl; [done|].
  destruct (cache_add key (Some v) c env) as [[c' env']|msg]; simpl; [apply IH|done].
Qed.

(** While there is room, distinct new keys pile up and nothing is
    evicted. *)
Lemma cache_adds_room kvs c env l :
  lru c = Some l ->
  NoDup kvs.*1 ->
  (forall key, key ∈ kvs.*1 -> lru.find key (lru.ll l) = None) ->
  Z.of_nat (length kvs + length (lru.ll l)) <= lru.MaxEntries l ->
  cache_adds kvs c env =
  Ok (mkCacheW (Some (lru.set_ll (rev (map entry_of kvs) ++ lru.ll l) l))
        (nhit c) (nget c) (nevict c), env).
Proof.
  revert c l. induction kvs as [|[key v] kvs IH]; intros c l Hl Hnd Hnew Hlen; simpl.
  - destruct c, l; simpl in *; by subst.
  - apply NoDup_cons in Hnd as [Hkey Hnd].
    erewrite cache_add_room; [|done| |simpl in *; lia].
    2:{ apply Hnew. simpl. apply elem_of_cons. by left. }
    simpl. erewrite IH; [|done|done| |simpl in *; lia].
    + simpl. by rewrite <- app_assoc.
    + intros key' Hin. unfold lru.set_ll. cbn [lru.ll]. rewrite find_cons_ne.
      * apply Hnew. simpl. apply elem_of_cons. by right.
      * intros ->. done.
Qed.

(** One key more than the capacity: the last insertion evicts once. *)
Lemma cache_adds_overflow N kvs env :
  0 <= N -> NoDup kvs.*1 -> Z.of_nat (length kvs) = N + 1 ->
  exists c' env' x,
    cache_adds kvs (cache_init Dispose N zero_cache) env = Ok (c', env') /\
    cache_items c' = Ok N /\
    Z.of_nat (length (entries c')) = N /\
    cache_stats c' = Ok (CacheStats.mk N 0 0 1) /\
    x ∈ kvs.*2 /\
    env' = (call_Dispose Dispose x env).2.
Proof.
  intros HN Hnd Hlen.
  destruct kvs as [|kv kvs0 _] using rev_ind; [simpl in Hlen; lia|].
  destruct kv as [key v].
  rewrite length_app in Hlen. simpl in Hlen.
  rewrite fmap_app in Hnd. apply NoDup_app in Hnd as (Hnd & Hkey & _).
  assert (Hfresh : key ∉ kvs0.*1).
  { intros Hin. apply (Hkey key Hin). simpl. apply list_elem_of_singleton. done. }
  assert (Hlast : exists L0 k0 x, (key, v) :: rev kvs0 = L0 ++ [(k0, x)] /\
                                 x ∈ (kvs0 ++ [(key, v)]).*2).
  { destruct kvs0 as [|[k0 x] r].
    - exists [], key, v. split; [done|]. simpl. apply list_elem_of_singleton. done.
    - exists ((key, v) :: rev r), k0, x. split; [done|]. simpl. apply elem_of_cons. by left. }
  destruct Hlast as (L0 & k0 & x & HL & Hx).
  rewrite cache_adds_app.
  erewrite cache_adds_room; [|reflexivity|done|done|simpl; lia].
  simpl. rewrite app_nil_r.
  erewrite cache_add_evict with (rest := map entry_of L0) (k0 := k0) (x := x);
    [|reflexivity|reflexivity| | |].
  - assert (HlenL : Z.of_nat (length L0) = N).
    { apply (f_equal (@length _)) in HL. simpl in HL.
      rewrite length_rev, length_app in HL. simpl in HL. lia. }
    simpl. eexists _, _, x. split; [reflexivity|].
    unfold cache_stats, cache_items, cache_itemsLocked, entries, lru.Len. simpl.
    rewrite length_map, HlenL. done.
  - simpl. apply find_None_keys. rewrite map_rev, map_map. simpl.
    intros Hin. apply Hfresh. apply list_elem_of_In in Hin. apply in_rev in Hin.
    apply list_elem_of_In. exact Hin.
  - simpl. rewrite length_rev, length_map. lia.
  - transitivity (map entry_of ((key, v) :: rev kvs0)).
    + simpl. by rewrite map_rev.
    + by rewrite HL, map_app.
Qed.
End cache_facts.

(** ** The get-or-load protocol *)

Section group_facts.
Context {V World : Type} (Dispose : V -> World -> World * error).
Implicit Types (c : @cache V World) (env : @Env V World) (v x : V)
  (g : @Group V World) (f : @GetterFunc V World)
  (l : lru.Cache V (@HookState V World)) (key : string).

Lemma cache_get_hit key c l x :
  lru c = Some l ->
  lru.find key (lru.ll l) = Some (Some x) ->
  cache_get key c =
  Ok (Some x, true,
      mkCacheW (Some (lru.set_ll (lru.mkEntry key (Some x) :: lru.remove key (lru.ll l)) l))
        (Int64.add (nhit c) 1) (Int64.add (nget c) 1) (nevict c)).
Proof. intros Hl Hf. unfold cache_get, lru.Get. by rewrite Hl, Hf. Qed.

Lemma cache_get_nil key c l :
  lru c = Some l ->
  lru.find key (lru.ll l) = Some None ->
  cache_get key c = Panic nil_conversion.
Proof. intros Hl Hf. unfold cache_get, lru.Get. by rewrite Hl, Hf. Qed.

Lemma cache_get_miss key c l :
  lru c = Some l ->
  lru.find key (lru.ll l) = None ->
  cache_get key c =
  Ok (None, false, mkCacheW (Some l) (nhit c) (Int64.add (nget c) 1) (nevict c)).
Proof. intros Hl Hf. unfold cache_get, lru.Get. by rewrite Hl, Hf. Qed.

Lemma cache_lookup_Some key c (value : Value) :
  cache_lookup key c = Some value ->
  exists l, lru c = Some l /\ lru.find key (lru.ll l) = Some value.
Proof.
  unfold cache_lookup, entries. destruct (lru c) as [l|]; [|done]. by exists l.
Qed.

(** The fast path. *)
Lemma Group_Get_hit key g env l x :
  lru (mainCache g) = Some l ->
  lru.find key (lru.ll l) = Some (Some x) ->
  Group_Get key g env =
  Ok ((Some x, None),
      mkGroup (name g) (getter g)
        (mkCacheW (Some (lru.set_ll (lru.mkEntry key (Some x) :: lru.remove key (lru.ll l)) l))
           (Int64.add (nhit (mainCache g)) 1) (Int64.add (nget (mainCache g)) 1)
           (nevict (mainCache g)))
        (Stats.mk (Int64.add (Stats.Gets (Stats g)) 1)
           (Int64.add (Stats.CacheHits (Stats g)) 1)),
      env).
Proof.
  intros Hl Hf. unfold Group_Get. by erewrite cache_get_hit.
Qed.

(** A miss whose load fails. *)
Lemma Group_Get_fail key g env l f (value : Value) msg w :
  lru (mainCache g) = Some l ->
  lru.find key (lru.ll l) = None ->
  getter g = Some f ->
  f key (world env) = ((value, Some msg), w) ->
  Group_Get key g env =
  Ok ((value, Some msg),
      mkGroup (name g) (getter g)
        (mkCacheW (Some l) (nhit (mainCache g)) (Int64.add (nget (mainCache g)) 1)
           (nevict (mainCache g)))
        (Stats.mk (Int64.add (Stats.Gets (Stats g)) 1) (Stats.CacheHits (Stats g))),
      mkEnv w (calls env ++ [CallGetter key])).
Proof.
  intros Hl Hf Hg Hload. unfold Group_Get. erewrite cache_get_miss by done.
  simpl. rewrite Hg. unfold call_Getter, GetterFunc_Get. by rewrite Hload.
Qed.

(** A miss whose load succeeds: the loaded value goes through
    [cache.add]. *)
Lemma Group_Get_load key g env l f (value : Value) w :
  lru (mainCache g) = Some l ->
  lru.find key (lru.ll l) = None ->
  getter g = Some f ->
  f key (world env) = ((value, None), w) ->
  Group_Get key g env =
  '(c', env') ← cache_add key value
                  (mkCacheW (Some l) (nhit (mainCache g))
                     (Int64.add (nget (mainCache g)) 1) (nevict (mainCache g)))
                  (mkEnv w (calls env ++ [CallGetter key]));
  Ok ((value, None),
      mkGroup (name g) (getter g) c'
        (Stats.mk (Int64.add (Stats.Gets (Stats g)) 1) (Stats.CacheHits (Stats g))),
      env').
Proof.
  intros Hl Hf Hg Hload. unfold Group_Get. erewrite cache_get_miss by done.
  simpl. rewrite Hg. unfold call_Getter, GetterFunc_Get. by rewrite Hload.
Qed.
End group_facts.

(** ** What a returning call tells *)

Section inversion.
Context {V World : Type}.
Implicit Types (c : @cache V World) (env : @Env V World) (v x : V)
  (g : @Group V World) (f : @GetterFunc V World)
  (l : lru.Cache V (@HookState V World)) (key : string) (value : @Value V).

(** Whatever the hook does, a returning [cache.add] leaves the new entry
    in front of the old ones, one of them possibly unlinked. *)
Lemma cache_add_inv key value c env c' env' :
  cache_add key value c env = Ok (c', env') ->
  exists l l',
    lru c = Some l /\ lru c' = Some l' /\
    lru.MaxEntries l' = lru.MaxEntries l /\
    lru.OnEvicted l' = lru.OnEvicted l /\
    nhit c' = nhit c /\ nget c' = nget c /\
    ((exists old, lru.find key (lru.ll l) = Some old /\
        lru.ll l' = lru.mkEntry key value :: lru.remove key (lru.ll l) /\
        lru.notify l (lru.mkEntry key old) (nevict c, env) = Ok (nevict c', env')) \/
     (lru.find key (lru.ll l) = None /\
        lru.ll l' = lru.mkEntry key value :: lru.ll l /\
        env' = env /\ nevict c' = nevict c) \/
     (lru.find key (lru.ll l) = None /\
        lru.MaxEntries l < Z.of_nat (S (length (lru.ll l))) /\
        exists old, lru.mkEntry key value :: lru.ll l = lru.ll l' ++ [old] /\
          lru.notify l old (nevict c, env) = Ok (nevict c', env'))).
Proof.
  unfold cache_add. destruct (lru c) as [l|]; [|done]. unfold lru.Add.
  destruct (lru.find key (lru.ll l)) as [old|] eqn:Hf.
  - simpl. destruct (lru.notify l _ _) as [[n e]|] eqn:Hn; [|done]. simpl.
    intros [= <- <-]. exists l. eexists. simpl. split_and!; try done.
    left. by exists old.
  - simpl. unfold lru.Len. simpl.
    destruct (Z.ltb_spec (lru.MaxEntries l) (Z.of_nat (S (length (lru.ll l))))).
    + unfold lru.RemoveOldest. simpl lru.ll.
      destruct (lru.pop_oldest _) as [[rest old]|] eqn:Hp.
      * apply pop_oldest_Some in Hp.
        destruct (lru.notify _ _ _) as [[n e]|] eqn:Hn; [|done]. simpl.
        intros [= <- <-]. exists l. eexists. simpl. split_and!; try done.
        right. right. split_and!; [done|done|]. by exists old.
      * by apply pop_oldest_None in Hp.
    + simpl. intros [= <- <-]. exists l. eexists. simpl. split_and!; try done.
      right. left. done.
Qed.

(** A key that was absent is bound, when still resident after the
    [add], to the value just added. *)
Lemma cache_add_lookup_new key value c env c' env' value' :
  cache_lookup key c = None ->
  cache_add key value c env = Ok (c', env') ->
  cache_lookup key c' = Some value' ->
  value' = value.
Proof.
  intros Hnone Hadd Hres.
  apply cache_add_inv in Hadd as (l & l' & Hl & Hl' & _ & _ & _ & _ & Hcase).
  unfold cache_lookup, entries in *. rewrite Hl in Hnone. rewrite Hl' in Hres.
  destruct Hcase as [(old & Hf & _)|[(_ & Hll & _)|(_ & _ & old & Hll & _)]].
  - congruence.
  - rewrite Hll, find_cons_eq in Hres. congruence.
  - apply (find_drop_oldest _ _ old) in Hres. rewrite <- Hll, find_cons_eq in Hres.
    congruence.
Qed.

(** The binding of another key survives an [add], unless that key is
    the one evicted. *)
Lemma cache_add_lookup_old key key' value c env c' env' value' :
  cache_lookup key' c = None ->
  cache_lookup key c = Some value' ->
  cache_add key' value c env = Ok (c', env') ->
  is_Some (cache_lookup key c') ->
  cache_lookup key c' = Some value'.
Proof.
  intros Hnone Hold Hadd [y Hres].
  assert (Hne : key' <> key) by (intros ->; congruence).
  apply cache_add_inv in Hadd as (l & l' & Hl & Hl' & _ & _ & _ & _ & Hcase).
  unfold cache_lookup, entries in *. rewrite Hl in Hnone, Hold. rewrite Hl' in Hres |- *.
  destruct Hcase as [(old & Hf & _)|[(_ & Hll & _)|(_ & _ & old & Hll & _)]].
  - congruence.
  - by rewrite Hll, find_cons_ne.
  - rewrite Hres. apply (find_drop_oldest _ _ old) in Hres.
    rewrite <- Hll, find_cons_ne in Hres by done. congruence.
Qed.

(** With a capacity of one or more, the key just added is resident. *)
Lemma cache_add_resident key value c env c' env' l :
  lru c = Some l ->
  1 <= lru.MaxEntries l ->
  cache_add key value c env = Ok (c', env') ->
  cache_lookup key c' = Some value.
Proof.
  intros Hl Hcap Hadd.
  apply cache_add_inv in Hadd as (l0 & l' & Hl0 & Hl' & _ & _ & _ & _ & Hcase).
  rewrite Hl in Hl0. injection Hl0 as <-.
  unfold cache_lookup, entries. rewrite Hl'.
  destruct Hcase as [(old & _ & Hll & _)|[(_ & Hll & _)|(_ & Hfull & old & Hll & _)]].
  - by rewrite Hll, find_cons_eq.
  - by rewrite Hll, find_cons_eq.
  - destruct (lru.ll l') as [|e r].
    + apply (f_equal (@length _)) in Hll. simpl in Hll. lia.
    + injection Hll as <- _. by rewrite find_cons_eq.
Qed.

(** The three ways of a returning [Group.Get]. *)
Lemma Group_Get_inv key g env value err g' env' :
  Group_Get key g env = Ok ((value, err), g', env') ->
  exists l, lru (mainCache g) = Some l /\
    name g' = name g /\ getter g' = getter g /\
    Stats.Gets (Stats g') = Int64.add (Stats.Gets (Stats g)) 1 /\
    nget (mainCache g') = Int64.add (nget (mainCache g)) 1 /\
    ((exists x, lru.find key (lru.ll l) = Some (Some x) /\
        value = Some x /\ err = None /\ env' = env /\
        mainCache g' =
          mkCacheW (Some (lru.set_ll (lru.mkEntry key (Some x) :: lru.remove key (lru.ll l)) l))
            (Int64.add (nhit (mainCache g)) 1) (Int64.add (nget (mainCache g)) 1)
            (nevict (mainCache g)) /\
        Stats.CacheHits (Stats g') = Int64.add (Stats.CacheHits (Stats g)) 1) \/
     (exists f w msg, lru.find key (lru.ll l) = None /\
        getter g = Some f /\ f key (world env) = ((value, Some msg), w) /\
        err = Some msg /\ env' = mkEnv w (calls env ++ [CallGetter key]) /\
        mainCache g' =
          mkCacheW (Some l) (nhit (mainCache g)) (Int64.add (nget (mainCache g)) 1)
            (nevict (mainCache g)) /\
        Stats.CacheHits (Stats g') = Stats.CacheHits (Stats g)) \/
     (exists f w, lru.find key (lru.ll l) = None /\
        getter g = Some f /\ f key (world env) = ((value, None), w) /\
        err = None /\
        cache_add key value
          (mkCacheW (Some l) (nhit (mainCache g)) (Int64.add (nget (mainCache g)) 1)
             (nevict (mainCache g)))
          (mkEnv w (calls env ++ [CallGetter key])) = Ok (mainCache g', env') /\
        Stats.CacheHits (Stats g') = Stats.CacheHits (Stats g))).
Proof.
  unfold Group_Get, cache_get, lru.Get.
  destruct (lru (mainCache g)) as [l|]; [|done].
  destruct (lru.find key (lru.ll l)) as [[x|]|] eqn:Hf; simpl; [|done|].
  - intros [= <- <- <- <-]. exists l. simpl. split_and!; try done.
    left. by exists x.
  - destruct (getter g) as [f|] eqn:Hg; [|done].
    unfold call_Getter, GetterFunc_Get.
    destruct (f key (world env)) as [[val [msg|]] w] eqn:Hload.
    + intros [= <- <- <- <-]. exists l. simpl. split_and!; try done.
      right. left. by exists f, w, msg.
    + destruct (cache_add _ _ _ _) as [[c' env2]|] eqn:Hadd; [|done]. simpl.
      pose proof (cache_add_inv _ _ _ _ _ _ Hadd) as (? & ? & _ & _ & _ & _ & _ & Hng & _).
      intros [= <- <- <- <-]. exists l. simpl. split_and!; try done.
      right. right. by exists f, w.
Qed.
End inversion.

(** ** The claims on [Group.Get] *)

Section protocol.
Context {V World : Type} (Dispose : V -> World -> World * error).
Implicit Types (c : @cache V World) (env : @Env V World) (v x : V)
  (g : @Group V World) (f : @GetterFunc V World)
  (l : lru.Cache V (@HookState V World)) (key : string) (value : @Value V).

(** C2. A load failure is propagated and leaves the cache alone.  When
    the cache of an initialised group has no entry for [key] and the
    getter fails for it with [msg], [Group.Get] returns what the getter
    returned, error included, after one call of the getter; the bounded
    cache and its resident entries are what they were, no entry for
    [key] exists afterwards, both gets counters have been incremented
    and no hits counter has. *)
Theorem Get_propagates_load_failure key g env l f value msg w :
  lru (mainCache g) = Some l ->
  cache_lookup key (mainCache g) = None ->
  getter g = Some f ->
  f key (world env) = ((value, Some msg), w) ->
  exists g',
    Group_Get key g env =
      Ok ((value, Some msg), g', mkEnv w (calls env ++ [CallGetter key])) /\
    lru (mainCache g') = lru (mainCache g) /\
    entries (mainCache g') = entries (mainCache g) /\
    cache_lookup key (mainCache g') = None /\
    nget (mainCache g') = Int64.add (nget (mainCache g)) 1 /\
    nhit (mainCache g') = nhit (mainCache g) /\
    nevict (mainCache g') = nevict (mainCache g) /\
    Stats.Gets (Stats g') = Int64.add (Stats.Gets (Stats g)) 1 /\
    Stats.CacheHits (Stats g') = Stats.CacheHits (Stats g) /\
    Group_CacheStats g' =
      Ok (CacheStats.mk (lru.Len l) (Int64.add (nget (mainCache g)) 1)
            (nhit (mainCache g)) (nevict (mainCache g))) /\
    name g' = name g /\ getter g' = getter g.
Proof.
  intros Hl Hnone Hg Hload. eexists. split.
  - eapply Group_Get_fail; try done.
    unfold cache_lookup, entries in Hnone. by rewrite Hl in Hnone.
  - unfold Group_CacheStats, cache_stats, cache_itemsLocked, cache_lookup, entries in *.
    simpl. rewrite Hl in *. by split_and!.
Qed.

(** C3. A miss followed by a successful load inserts and returns the
    loaded value.  When the cache (in order) has no entry for [key] and
    the getter returns the value [v] and no error, [Group.Get] calls the
    getter once, hands [v] to [cache.add] under [key] and returns [v]
    with a nil error.  The new entry and the old ones are accounted for:
    they are the resident entries plus the evicted ones, and with a
    capacity of one or more [key] is resident with [v].  [cache.add]
    itself overwrites: a key that had an entry is bound to the new value
    afterwards. *)
Theorem Get_inserts_loaded_value key g env f v w :
  cache_ok Dispose (mainCache g) ->
  cache_lookup key (mainCache g) = None ->
  getter g = Some f ->
  f key (world env) = ((Some v, None), w) ->
  exists g' env' (evicted : list (string * V)),
    Group_Get key g env = Ok ((Some v, None), g', env') /\
    cache_add key (Some v)
      (mkCacheW (lru (mainCache g)) (nhit (mainCache g))
         (Int64.add (nget (mainCache g)) 1) (nevict (mainCache g)))
      (mkEnv w (calls env ++ [CallGetter key])) = Ok (mainCache g', env') /\
    calls env' = calls env ++ [CallGetter key] ++ map CallDispose (map snd evicted) /\
    lru.mkEntry key (Some v) :: entries (mainCache g)
      ≡ₚ entries (mainCache g') ++ map entry_of evicted /\
    (forall l, lru (mainCache g) = Some l -> 1 <= lru.MaxEntries l ->
       cache_lookup key (mainCache g') = Some (Some v)) /\
    cache_ok Dispose (mainCache g') /\
    Stats.Gets (Stats g') = Int64.add (Stats.Gets (Stats g)) 1 /\
    Stats.CacheHits (Stats g') = Stats.CacheHits (Stats g) /\
    name g' = name g /\ getter g' = getter g /\
    (forall c env0 v',
       cache_ok Dispose c -> is_Some (cache_lookup key c) ->
       exists c1 env1, cache_add key (Some v') c env0 = Ok (c1, env1) /\
                       cache_lookup key c1 = Some (Some v')).
Proof.
  intros Hok Hnone Hg Hload.
  pose proof Hok as [(l & Hl & Hh) Hall].
  set (c1 := mkCacheW (lru (mainCache g)) (nhit (mainCache g))
               (Int64.add (nget (mainCache g)) 1) (nevict (mainCache g))).
  assert (Hok1 : cache_ok Dispose c1).
  { split; [by exists l|]. exact Hall. }
  destruct (cache_add_ok Dispose key v c1 (mkEnv w (calls env ++ [CallGetter key])) Hok1)
    as (c' & env' & evicted & Hadd & Hperm & _ & Henv & _ & _ & _ & _ & Hok').
  exists (mkGroup (name g) (getter g) c'
            (Stats.mk (Int64.add (Stats.Gets (Stats g)) 1) (Stats.CacheHits (Stats g)))),
    env', evicted.
  simpl. split_and!; try done.
  - erewrite Group_Get_load; try done.
    + unfold c1 in Hadd. rewrite Hl in Hadd. by rewrite Hadd.
    + unfold cache_lookup, entries in Hnone. by rewrite Hl in Hnone.
  - rewrite Henv, calls_dispose_all. simpl. by rewrite <- app_assoc.
  - intros l0 Hl0 Hcap. by eapply (cache_add_resident key (Some v) c1).
  - intros c env0 v' Hokc [old Hold].
    destruct (cache_add_ok Dispose key v' c env0 Hokc)
      as (c2 & env2 & _ & Hadd2 & _).
    exists c2, env2. split; [done|].
    pose proof (cache_add_inv _ _ _ _ _ _ Hadd2)
      as (l2 & l2' & Hl2 & Hl2' & _ & _ & _ & _ & Hcase).
    unfold cache_lookup, entries in *. rewrite Hl2 in Hold. rewrite Hl2'.
    destruct Hcase as [(? & _ & Hll & _)|[(Hf & _)|(Hf & _)]]; [|congruence..].
    by rewrite Hll, find_cons_eq.
Qed.

(** C10. A hit changes the counters and nothing else.  When [key] is
    resident with the value [v], [Group.Get] returns [v]; the world and
    the record of calls are untouched (no [Dispose], no getter call), the
    resident entries are the same up to their order, every key is bound
    as before, capacity, hook and evictions counter are unchanged, and so
    are the name and the getter of the group.  Only the two gets
    counters and the two hits counters move, by one each. *)
Theorem Get_hit_changes_counters_only key g env v :
  cache_lookup key (mainCache g) = Some (Some v) ->
  exists g',
    Group_Get key g env = Ok ((Some v, None), g', env) /\
    entries (mainCache g') ≡ₚ entries (mainCache g) /\
    (forall key', cache_lookup key' (mainCache g') = cache_lookup key' (mainCache g)) /\
    lru.MaxEntries <$> lru (mainCache g') = lru.MaxEntries <$> lru (mainCache g) /\
    lru.OnEvicted <$> lru (mainCache g') = lru.OnEvicted <$> lru (mainCache g) /\
    nevict (mainCache g') = nevict (mainCache g) /\
    name g' = name g /\ getter g' = getter g /\
    nget (mainCache g') = Int64.add (nget (mainCache g)) 1 /\
    nhit (mainCache g') = Int64.add (nhit (mainCache g)) 1 /\
    Stats.Gets (Stats g') = Int64.add (Stats.Gets (Stats g)) 1 /\
    Stats.CacheHits (Stats g') = Int64.add (Stats.CacheHits (Stats g)) 1.
Proof.
  intros Hres. destruct (cache_lookup_Some _ _ _ Hres) as (l & Hl & Hf).
  eexists. split; [by eapply Group_Get_hit|].
  unfold cache_lookup, entries. simpl. rewrite Hl. simpl. split_and!; try done.
  - by apply front_Permutation.
  - intros key'. by apply find_front.
Qed.

(** A binding is the same after a [Get] of any key, as long as its key
    is still resident. *)
Lemma Group_Get_keeps key key' g env r g' env' value :
  cache_lookup key (mainCache g) = Some value ->
  Group_Get key' g env = Ok (r, g', env') ->
  resident key g' ->
  cache_lookup key (mainCache g') = Some value.
Proof.
  intros Hold Hget Hres. destruct r as [val err].
  apply Group_Get_inv in Hget as (l & Hl & _ & _ & _ & _ & Hcase).
  destruct Hcase as [(x & Hf & _ & _ & _ & Hc & _)|
                     [(f & w & msg & _ & _ & _ & _ & _ & Hc & _)|
                      (f & w & Hf & _ & _ & _ & Hadd & _)]].
  - rewrite Hc. unfold cache_lookup, entries in *. rewrite Hl in Hold.
    cbn [lru lru.ll lru.set_ll]. by rewrite find_front.
  - rewrite Hc. unfold cache_lookup, entries in *. simpl. by rewrite Hl in Hold.
  - eapply cache_add_lookup_old; [| |exact Hadd|exact Hres].
    + unfold cache_lookup, entries. simpl. done.
    + unfold cache_lookup, entries in *. simpl. by rewrite Hl in Hold.
Qed.

Lemma kept_lookup key (s s' : @Group V World * @Env V World) value :
  kept key s s' ->
  cache_lookup key (mainCache s.1) = Some value ->
  cache_lookup key (mainCache s'.1) = Some value.
Proof.
  induction 1 as [s|g env key' r g1 env1 s' Hget Hres _ IH]; [done|].
  intros Hold. apply IH. simpl in *. by eapply Group_Get_keeps.
Qed.

(** C4. The fast path after a load.  [key] was absent and a [Get]
    loaded the value [v] for it without error; [key] is resident after
    that call and after each of the [Get] calls, of any keys, that
    follow.  Then a [Get] of [key] returns the same [v] with a nil
    error, the world and the record of calls are untouched (the getter
    is not called), and both hits counters are incremented. *)
Theorem Get_hits_after_load key g env v g1 env1 g2 env2 :
  cache_lookup key (mainCache g) = None ->
  Group_Get key g env = Ok ((Some v, None), g1, env1) ->
  resident key g1 ->
  kept key (g1, env1) (g2, env2) ->
  exists g3,
    Group_Get key g2 env2 = Ok ((Some v, None), g3, env2) /\
    Stats.CacheHits (Stats g3) = Int64.add (Stats.CacheHits (Stats g2)) 1 /\
    nhit (mainCache g3) = Int64.add (nhit (mainCache g2)) 1 /\
    Stats.Gets (Stats g3) = Int64.add (Stats.Gets (Stats g2)) 1 /\
    nget (mainCache g3) = Int64.add (nget (mainCache g2)) 1 /\
    resident key g3.
Proof.
  intros Hnone Hget [value Hres] Hkept.
  assert (Hv : value = Some v).
  { apply Group_Get_inv in Hget as (l & Hl & _ & _ & _ & _ & Hcase).
    unfold cache_lookup, entries in Hnone. rewrite Hl in Hnone.
    destruct Hcase as [(x & Hf & _)|
                       [(f & w & msg & _ & _ & _ & ? & _)|
                        (f & w & Hf & _ & _ & _ & Hadd & _)]]; [congruence|done|].
    eapply cache_add_lookup_new; [|exact Hadd|exact Hres].
    unfold cache_lookup, entries. simpl. done. }
  subst value.
  apply (kept_lookup _ _ _ _ Hkept) in Hres. simpl in Hres.
  destruct (cache_lookup_Some _ _ _ Hres) as (l & Hl & Hf).
  eexists. split; [by eapply Group_Get_hit|].
  simpl. split_and!; try done.
  exists (Some v). unfold cache_lookup, entries. cbn [mainCache lru lru.ll lru.set_ll].
  apply find_cons_eq.
Qed.
End protocol.

(** ** The claims on eviction *)

Section eviction.
Context {V World : Type} (Dispose : V -> World -> World * error).
Implicit Types (c : @cache V World) (env : @Env V World) (v x : V)
  (g : @Group V World) (f : @GetterFunc V World)
  (l : lru.Cache V (@HookState V World)) (key : string) (value : @Value V).

(** C1. Every evicted entry is disposed of once, and counted.  The
    hook of [init], called on a value, calls [Dispose] of that value once
    and increments the evictions counter.  On a wrapper in order,
    [cache.add] returns; the entries it evicted are
    entries that left the cache (the new entry and the old ones are the
    resident entries plus the evicted ones), [Dispose] ran exactly once
    on each evicted value and on nothing else, and the evictions counter
    went up once per evicted entry.  Consequently, on a fresh cache of
    capacity [N], inserting N+1 distinct keys leaves N resident entries
    after exactly one eviction and one call of [Dispose]. *)
Theorem eviction_disposes_once key v c env N (kvs : list (string * V)) env0 :
  cache_ok Dispose c ->
  0 <= N -> NoDup kvs.*1 -> Z.of_nat (length kvs) = N + 1 ->
  (forall key0 x n env1,
     onEvicted Dispose key0 (Some x) (n, env1) =
     Ok (Int64.add n 1,
         mkEnv (Dispose x (world env1)).1 (calls env1 ++ [CallDispose x]))) /\
  (exists c' env' (evicted : list (string * V)),
     cache_add key (Some v) c env = Ok (c', env') /\
     lru.mkEntry key (Some v) :: entries c ≡ₚ entries c' ++ map entry_of evicted /\
     env' = dispose_all Dispose (map snd evicted) env /\
     calls env' = calls env ++ map CallDispose (map snd evicted) /\
     nevict c' = incr (length evicted) (nevict c)) /\
  (exists c' env' x,
     cache_adds kvs (cache_init Dispose N zero_cache) env0 = Ok (c', env') /\
     Z.of_nat (length (entries c')) = N /\
     cache_stats c' = Ok (CacheStats.mk N 0 0 1) /\
     x ∈ kvs.*2 /\
     calls env' = calls env0 ++ [CallDispose x]).
Proof.
  intros Hok HN Hnd Hlen. split; [|split].
  - intros key0 x n env1. by rewrite onEvicted_value, call_Dispose_env.
  - destruct (cache_add_ok Dispose key v c env Hok)
      as (c' & env' & evicted & Hadd & Hperm & _ & Henv & Hn & _).
    exists c', env', evicted. split_and!; try done.
    by rewrite Henv, calls_dispose_all.
  - destruct (cache_adds_overflow Dispose N kvs env0 HN Hnd Hlen)
      as (c' & env' & x & Hadds & _ & Hlen' & Hst & Hx & Henv).
    exists c', env', x. split_and!; try done.
    by rewrite Henv, call_Dispose_env.
Qed.

(** [cache.add] when the bounded cache reports a value to the hook:
    whatever [Dispose] returns, the call returns and counts. *)
Lemma cache_add_victim key v c env l k0 x w err :
  lru c = Some l ->
  lru.OnEvicted l = Some (onEvicted Dispose) ->
  lru.victim key (Some v) l = Some (lru.mkEntry k0 (Some x)) ->
  Dispose x (world env) = (w, err) ->
  exists c',
    cache_add key (Some v) c env = Ok (c', mkEnv w (calls env ++ [CallDispose x])) /\
    nevict c' = Int64.add (nevict c) 1 /\
    nhit c' = nhit c /\ nget c' = nget c /\
    lru.mkEntry key (Some v) :: entries c ≡ₚ entries c' ++ [lru.mkEntry k0 (Some x)].
Proof.
  intros Hl Hh Hvic Hd. unfold lru.victim in Hvic.
  assert (Henv : (call_Dispose Dispose x env).2 = mkEnv w (calls env ++ [CallDispose x])).
  { by rewrite call_Dispose_env, Hd. }
  unfold entries. rewrite Hl.
  destruct (lru.find key (lru.ll l)) as [old|] eqn:Hf.
  - injection Hvic as <- ->. eexists. split.
    + erewrite cache_add_overwrite by done. by rewrite Henv.
    + simpl. split_and!; try done.
      rewrite <- (front_Permutation _ _ _ Hf) at 1.
      constructor. apply Permutation_cons_append.
  - destruct (Z.ltb_spec (lru.MaxEntries l)
                (Z.of_nat (length (lru.mkEntry key (Some v) :: lru.ll l)))) as [Hfull|];
      [|done].
    destruct (lru.pop_oldest _) as [[rest old]|] eqn:Hp; [|done].
    injection Hvic as ->. apply pop_oldest_Some in Hp. eexists. split.
    + erewrite cache_add_evict by done. by rewrite Henv.
    + simpl. by rewrite Hp.
Qed.

(** C8. A failing [Dispose] is not propagated.  The bounded cache is
    about to report the value [x] to the hook, and [Dispose] of [x]
    returns [err], an error or not.  Then [cache.add] returns (its
    result has no error component and it does not panic), the entry of
    [x] has left the cache, and the evictions counter is incremented by
    one, the same outcome for every [err]; and the [Group.Get] whose
    load triggered that [add] returns the loaded value with a nil
    error. *)
Theorem Dispose_failure_is_not_propagated key v l k0 x w0 w err :
  lru.OnEvicted l = Some (onEvicted Dispose) ->
  lru.victim key (Some v) l = Some (lru.mkEntry k0 (Some x)) ->
  Dispose x w0 = (w, err) ->
  (forall c env,
     lru c = Some l -> world env = w0 ->
     exists c',
       cache_add key (Some v) c env = Ok (c', mkEnv w (calls env ++ [CallDispose x])) /\
       nevict c' = Int64.add (nevict c) 1 /\
       nhit c' = nhit c /\ nget c' = nget c /\
       lru.mkEntry key (Some v) :: entries c ≡ₚ entries c' ++ [lru.mkEntry k0 (Some x)]) /\
  (forall g env f,
     lru (mainCache g) = Some l ->
     cache_lookup key (mainCache g) = None ->
     getter g = Some f ->
     f key (world env) = ((Some v, None), w0) ->
     exists g',
       Group_Get key g env =
         Ok ((Some v, None), g',
             mkEnv w (calls env ++ [CallGetter key; CallDispose x])) /\
       nevict (mainCache g') = Int64.add (nevict (mainCache g)) 1 /\
       lru.mkEntry key (Some v) :: entries (mainCache g)
         ≡ₚ entries (mainCache g') ++ [lru.mkEntry k0 (Some x)]).
Proof.
  intros Hh Hvic Hd. split.
  - intros c env Hl <-. by eapply cache_add_victim.
  - intros g env f Hl Hnone Hg Hload.
    unfold cache_lookup, entries in Hnone. rewrite Hl in Hnone.
    set (c1 := mkCacheW (Some l) (nhit (mainCache g))
                 (Int64.add (nget (mainCache g)) 1) (nevict (mainCache g))).
    destruct (cache_add_victim key v c1 (mkEnv w0 (calls env ++ [CallGetter key]))
                l k0 x w err eq_refl Hh Hvic Hd)
      as (c' & Hadd & Hn & _ & _ & Hperm).
    eexists. split.
    + erewrite Group_Get_load by done. fold c1. rewrite Hadd. simpl.
      by rewrite <- app_assoc.
    + simpl. split; [done|]. unfold entries in *. simpl in Hperm. by rewrite Hl.
Qed.
End eviction.

(** ** The counters *)

Section counters.
Context {V World : Type} (Dispose : V -> World -> World * error).
Implicit Types (c : @cache V World) (env : @Env V World) (v x : V)
  (g : @Group V World) (f : @GetterFunc V World)
  (l : lru.Cache V (@HookState V World)) (key : string) (value : @Value V).

Lemma notify_installed l (e : lru.entry V) n env n' env' :
  lru.OnEvicted l = Some (onEvicted Dispose) ->
  lru.notify l e (n, env) = Ok (n', env') ->
  n' = Int64.add n 1.
Proof.
  unfold lru.notify. intros ->. destruct (lru.value e) as [x|]; [|done].
  rewrite onEvicted_value. simpl. by intros [= <- _].
Qed.

(** [cache.add] moves the evictions counter by one at most, and no other
    counter. *)
Lemma cache_add_counts key value c env c' env' :
  installed Dispose c ->
  cache_add key value c env = Ok (c', env') ->
  installed Dispose c' /\
  nhit c' = nhit c /\ nget c' = nget c /\
  (nevict c' = nevict c \/ nevict c' = Int64.add (nevict c) 1).
Proof.
  intros (l0 & Hl0 & Hh) Hadd.
  apply cache_add_inv in Hadd
    as (l & l' & Hl & Hl' & _ & Hh' & Hnh & Hng & Hcase).
  rewrite Hl in Hl0. injection Hl0 as ->.
  split_and!; try done.
  - exists l'. by rewrite Hh'.
  - destruct Hcase as [(old & _ & _ & Hn)|[(_ & _ & _ & Hn)|(_ & _ & old & _ & Hn)]].
    + right. by eapply notify_installed.
    + by left.
    + right. by eapply notify_installed.
Qed.

(** One [Get]: the gets counters move by one, and either the hits
    counters do, or the evictions counter may. *)
Lemma Group_Get_counts key g env r g' env' :
  installed Dispose (mainCache g) ->
  Group_Get key g env = Ok (r, g', env') ->
  installed Dispose (mainCache g') /\
  Stats.Gets (Stats g') = Int64.add (Stats.Gets (Stats g)) 1 /\
  nget (mainCache g') = Int64.add (nget (mainCache g)) 1 /\
  ((Stats.CacheHits (Stats g') = Int64.add (Stats.CacheHits (Stats g)) 1 /\
    nhit (mainCache g') = Int64.add (nhit (mainCache g)) 1 /\
    nevict (mainCache g') = nevict (mainCache g)) \/
   (Stats.CacheHits (Stats g') = Stats.CacheHits (Stats g) /\
    nhit (mainCache g') = nhit (mainCache g) /\
    (nevict (mainCache g') = nevict (mainCache g) \/
     nevict (mainCache g') = Int64.add (nevict (mainCache g)) 1))).
Proof.
  intros Hinst Hget. destruct r as [value err].
  pose proof Hinst as (l0 & Hl0 & Hh).
  apply Group_Get_inv in Hget as (l & Hl & _ & _ & Hsg & Hng & Hcase).
  rewrite Hl in Hl0. injection Hl0 as ->.
  destruct Hcase as [(x & _ & _ & _ & _ & Hc & Hsh)|
                     [(f & w & msg & _ & _ & _ & _ & _ & Hc & Hsh)|
                      (f & w & _ & _ & _ & _ & Hadd & Hsh)]].
  - rewrite Hc. simpl. split_and!; try done; [by eexists|]. by left.
  - rewrite Hc. simpl. split_and!; try done; [by eexists|]. right. split_and!; try done. by left.
  - apply cache_add_counts in Hadd as (Hinst' & Hnh & _ & Hne); [|by eexists].
    simpl in *. split_and!; try done. right. by split_and!.
Qed.

Lemma parity_new_Group name cacheNum getter :
  parity (new_Group Dispose name cacheNum getter).
Proof. done. Qed.

Lemma Group_Get_parity key g env r g' env' :
  installed Dispose (mainCache g) ->
  Group_Get key g env = Ok (r, g', env') ->
  parity g -> parity g'.
Proof.
  intros Hinst Hget [Hpg Hph].
  destruct (Group_Get_counts _ _ _ _ _ _ Hinst Hget)
    as (_ & Hsg & Hng & [(Hsh & Hnh & _)|(Hsh & Hnh & _)]);
    split; congruence.
Qed.

Lemma Group_Gets_parity keys g env g' env' :
  installed Dispose (mainCache g) ->
  Group_Gets keys g env = Ok (g', env') ->
  parity g -> installed Dispose (mainCache g') /\ parity g'.
Proof.
  revert g env. induction keys as [|key keys IH]; intros g env Hinst; simpl.
  - by intros [= <- <-].
  - destruct (Group_Get key g env) as [[[r g1] env1]|] eqn:Hget; [|done]. simpl.
    intros Hrun Hpar. eapply IH; [|exact Hrun|].
    + by eapply Group_Get_counts.
    + by eapply Group_Get_parity.
Qed.

(** With an honest getter, [Get] on a wrapper in order returns and leaves
    the wrapper in order. *)
Lemma Group_Get_total key g env f :
  cache_ok Dispose (mainCache g) ->
  getter g = Some f -> honest f ->
  exists r g' env',
    Group_Get key g env = Ok (r, g', env') /\
    cache_ok Dispose (mainCache g') /\ getter g' = Some f.
Proof.
  intros Hok Hg Hf. pose proof Hok as [(l & Hl & Hh) Hall].
  unfold entries in Hall. rewrite Hl in Hall.
  destruct (lru.find key (lru.ll l)) as [value|] eqn:Hfind.
  - destruct (find_holds_value _ _ _ Hall Hfind) as [x ->].
    eexists _, _, _. split; [by eapply Group_Get_hit|]. simpl. split; [|done].
    split; [by eexists|]. unfold entries. simpl.
    by rewrite (front_Permutation _ _ _ Hfind).
  - destruct (f key (world env)) as [[value [msg|]] w] eqn:Hload.
    + eexists _, _, _. split; [by eapply Group_Get_fail|]. simpl. split; [|done].
      split; [by eexists|]. unfold entries. simpl. done.
    + pose proof (Hf key (world env)) as Hval. rewrite Hload in Hval.
      destruct (Hval eq_refl) as [v Hv]. simpl in Hv. subst value.
      set (c1 := mkCacheW (Some l) (nhit (mainCache g))
                   (Int64.add (nget (mainCache g)) 1) (nevict (mainCache g))).
      assert (Hok1 : cache_ok Dispose c1).
      { split; [by exists l|]. unfold entries. simpl. done. }
      destruct (cache_add_ok Dispose key v c1 (mkEnv w (calls env ++ [CallGetter key])) Hok1)
        as (c' & env' & _ & Hadd & _ & _ & _ & _ & _ & _ & _ & Hok').
      eexists _, _, _. split.
      * erewrite Group_Get_load by done. fold c1. rewrite Hadd. simpl. done.
      * done.
Qed.

Lemma Group_Gets_total keys g env f :
  cache_ok Dispose (mainCache g) ->
  getter g = Some f -> honest f ->
  exists g' env', Group_Gets keys g env = Ok (g', env').
Proof.
  revert g env. induction keys as [|key keys IH]; intros g env Hok Hg Hf; simpl.
  - by eexists _, _.
  - destruct (Group_Get_total key g env f Hok Hg Hf) as (r & g1 & env1 & -> & Hok1 & Hg1).
    simpl. by apply IH.
Qed.

Lemma Group_Gets_app keys1 keys2 g env :
  Group_Gets (keys1 ++ keys2) g env =
  '(g1, env1) ← Group_Gets keys1 g env; Group_Gets keys2 g1 env1.
Proof.
  revert g env. induction keys1 as [|key keys1 IH]; intros g env; simpl; [done|].
  destruct (Group_Get key g env) as [[[r g1] env1]|]; simpl; [apply IH|done].
Qed.

(** Below the wrap-around the counters are what they count. *)
Lemma Group_Get_counted key g env r g' env' n :
  counted Dispose n (mainCache g) ->
  n < Int64.max ->
  Group_Get key g env = Ok (r, g', env') ->
  counted Dispose (n + 1) (mainCache g') /\
  nhit (mainCache g) <= nhit (mainCache g') /\
  nevict (mainCache g) <= nevict (mainCache g').
Proof.
  intros (Hinst & Hng & Hh0 & He0 & Hsum) Hn Hget.
  destruct (Group_Get_counts _ _ _ _ _ _ Hinst Hget)
    as (Hinst' & _ & Hng' & Hcase).
  unfold Int64.max in Hn.
  assert (Hadd : forall z, 0 <= z <= n -> Int64.add z 1 = z + 1).
  { intros z Hz. apply add_small. unfold Int64.in_range, Int64.min, Int64.max. lia. }
  rewrite Hng, Hadd in Hng' by lia.
  unfold counted.
  destruct Hcase as [(_ & Hnh & Hne)|(_ & Hnh & [Hne|Hne])];
    rewrite ?Hadd in * by lia; split_and!; try done; lia.
Qed.

Lemma Group_Gets_counted keys g env g' env' n :
  counted Dispose n (mainCache g) ->
  n + Z.of_nat (length keys) <= Int64.max ->
  Group_Gets keys g env = Ok (g', env') ->
  counted Dispose (n + Z.of_nat (length keys)) (mainCache g') /\
  nget (mainCache g) <= nget (mainCache g') /\
  nhit (mainCache g) <= nhit (mainCache g') /\
  nevict (mainCache g) <= nevict (mainCache g').
Proof.
  revert g env n. induction keys as [|key keys IH]; intros g env n Hc Hn; simpl.
  - intros [= <- <-]. rewrite Z.add_0_r. split_and!; [done|lia..].
  - destruct (Group_Get key g env) as [[[r g1] env1]|] eqn:Hget; [|done]. simpl.
    intros Hrun. simpl length in Hn.
    destruct (Group_Get_counted _ _ _ _ _ _ _ Hc ltac:(lia) Hget) as (Hc1 & Hh1 & He1).
    destruct (IH g1 env1 (n + 1) Hc1 ltac:(lia) Hrun) as (Hc' & Hg' & Hh' & He').
    replace (n + Z.of_nat (S (length keys))) with (n + 1 + Z.of_nat (length keys)) by lia.
    destruct Hc as (_ & Hng & _), Hc1 as (_ & Hng1 & _).
    split_and!; [done|lia..].
Qed.

Lemma counted_new_Group name cacheNum getter :
  counted Dispose 0 (mainCache (new_Group Dispose name cacheNum getter)).
Proof. split; [by eexists|]. simpl. lia. Qed.

(** A run of failing loads of one absent key. *)
Lemma Group_Gets_failing key n g env l f msg :
  lru (mainCache g) = Some l ->
  lru.find key (lru.ll l) = None ->
  getter g = Some f ->
  (forall w, f key w = ((None, Some msg), w)) ->
  Group_Gets (repeat key n) g env =
  Ok (mkGroup (name g) (getter g)
        (mkCacheW (Some l) (nhit (mainCache g)) (incr n (nget (mainCache g)))
           (nevict (mainCache g)))
        (Stats.mk (incr n (Stats.Gets (Stats g))) (Stats.CacheHits (Stats g))),
      mkEnv (world env) (calls env ++ repeat (CallGetter key) n)).
Proof.
  revert g env. induction n as [|n IH]; intros g env Hl Hfind Hg Hf.
  - simpl. rewrite app_nil_r. destruct g as [? ? [] []], env. simpl in *. by subst.
  - cbn [repeat Group_Gets]. erewrite Group_Get_fail by done.
    cbn [mbind result_bind]. rewrite IH by done.
    unfold incr. rewrite !Nat.iter_succ_r. simpl. by rewrite <- app_assoc.
Qed.

Lemma incr_wrap n a : Int64.in_range a -> incr n a = Int64.wrap (a + Z.of_nat n).
Proof.
  intros Ha. induction n as [|n IH].
  - simpl. rewrite Z.add_0_r. by rewrite wrap_small.
  - unfold incr in *. rewrite Nat.iter_succ, IH, add_wrap_l. f_equal. lia.
Qed.

(** The gets counters of a run, wrap-around included. *)
Lemma Group_Gets_gets keys g env g' env' :
  installed Dispose (mainCache g) ->
  Group_Gets keys g env = Ok (g', env') ->
  Stats.Gets (Stats g') = incr (length keys) (Stats.Gets (Stats g)) /\
  nget (mainCache g') = incr (length keys) (nget (mainCache g)).
Proof.
  revert g env. induction keys as [|key keys IH]; intros g env Hinst; simpl.
  - by intros [= <- <-].
  - destruct (Group_Get key g env) as [[[r g1] env1]|] eqn:Hget; [|done]. simpl.
    intros Hrun.
    destruct (Group_Get_counts _ _ _ _ _ _ Hinst Hget) as (Hinst1 & Hsg & Hng & _).
    destruct (IH g1 env1 Hinst1 Hrun) as (-> & ->).
    rewrite Hsg, Hng. unfold incr.
    split; symmetry; exact (Nat.iter_succ_r (length keys) (fun z => Int64.add z 1) _).
Qed.
End counters.

(** ** The claims on the counters *)

Section statistics.
Context {V World : Type} (Dispose : V -> World -> World * error).
Implicit Types (env : @Env V World) (g : @Group V World) (f : @GetterFunc V World)
  (getter : @Getter V World) (keys : list string).

(** C9. Both counter paths are updated on every [Get], and agree.
    Every returning [Get] adds one to the atomic [Stats.Gets] and one to
    the gets counter of the wrapper; when the key is resident it adds one
    to [Stats.CacheHits] and one to the hits counter of the wrapper, and
    when the key is absent it leaves both alone.  So after any run of
    [Get] calls on a group as [NewGroup] makes it, [Stats.Gets] equals the
    gets counter that [CacheStats] reports, both being the number of
    calls wrapped to [int64], and [Stats.CacheHits] equals the reported
    hits counter; and with a getter that keeps its contract every such
    run returns. *)
Theorem Stats_agree_with_CacheStats name cacheNum getter keys env :
  (forall key g env0 r g1 env1,
     Group_Get key g env0 = Ok (r, g1, env1) ->
     Stats.Gets (Stats g1) = AtomicInt_Add (Stats.Gets (Stats g)) 1 /\
     nget (mainCache g1) = Int64.add (nget (mainCache g)) 1 /\
     (is_Some (cache_lookup key (mainCache g)) ->
        Stats.CacheHits (Stats g1) = AtomicInt_Add (Stats.CacheHits (Stats g)) 1 /\
        nhit (mainCache g1) = Int64.add (nhit (mainCache g)) 1) /\
     (cache_lookup key (mainCache g) = None ->
        Stats.CacheHits (Stats g1) = Stats.CacheHits (Stats g) /\
        nhit (mainCache g1) = nhit (mainCache g))) /\
  (forall g' env',
     Group_Gets keys (new_Group Dispose name cacheNum getter) env = Ok (g', env') ->
     exists st,
       Group_CacheStats g' = Ok st /\
       AtomicInt_Get (Stats.Gets (Stats g')) = CacheStats.Gets st /\
       AtomicInt_Get (Stats.CacheHits (Stats g')) = CacheStats.Hits st /\
       CacheStats.Gets st = Int64.wrap (Z.of_nat (length keys))) /\
  (forall f,
     getter = Some f -> honest f ->
     exists g' env',
       Group_Gets keys (new_Group Dispose name cacheNum getter) env = Ok (g', env')).
Proof.
  split_and!.
  - intros key g env0 [value err] g1 env1 Hget.
    apply Group_Get_inv in Hget as (l & Hl & _ & _ & Hsg & Hng & Hcase).
    unfold cache_lookup, entries, AtomicInt_Add. rewrite Hl.
    split_and!; [done|done| |].
    + intros [old Hold].
      destruct Hcase as [(x & _ & _ & _ & _ & Hc & Hsh)|
                         [(f & w & msg & Hf & _)|(f & w & Hf & _)]];
        [|congruence..].
      rewrite Hc. by split.
    + intros Hnone.
      destruct Hcase as [(x & Hf & _)|
                         [(f & w & msg & _ & _ & _ & _ & _ & Hc & Hsh)|
                          (f & w & _ & _ & _ & _ & Hadd & Hsh)]];
        [congruence| |].
      * rewrite Hc. by split.
      * apply cache_add_inv in Hadd as (? & ? & _ & _ & _ & _ & Hnh & _).
        by split.
  - intros g' env' Hrun.
    assert (Hinst : installed Dispose
                      (mainCache (new_Group Dispose name cacheNum getter)))
      by (by eexists).
    destruct (Group_Gets_parity Dispose keys (new_Group Dispose name cacheNum getter)
                env g' env' Hinst Hrun (parity_new_Group _ _ _ _))
      as ((l & Hl & _) & Hpg & Hph).
    destruct (Group_Gets_gets Dispose _ _ _ _ _ Hinst Hrun) as (_ & Hng).
    rewrite incr_wrap in Hng by (by vm_compute). simpl in Hng.
    unfold Group_CacheStats, cache_stats, cache_itemsLocked. rewrite Hl. simpl.
    eexists. split; [done|]. simpl. unfold AtomicInt_Get. by split_and!.
  - intros f -> Hf. eapply Group_Gets_total; [apply cache_ok_init|done|done].
Qed.

(** C5, amended.  On a group as [NewGroup] makes it, as long as fewer
    than 2^63 [Get] calls have been made, every snapshot of [CacheStats]
    counts the calls ([Gets] is their number), has [0 <= Hits <= Gets] and
    [Hits + Evictions <= Gets], and the snapshot after any prefix of the
    run is below it counter by counter: the counters never decrease. *)
Theorem counters_monotone_below_wrap name cacheNum getter keys env g' env' :
  Z.of_nat (length keys) < 2 ^ 63 ->
  Group_Gets keys (new_Group Dispose name cacheNum getter) env = Ok (g', env') ->
  exists st,
    Group_CacheStats g' = Ok st /\
    CacheStats.Gets st = Z.of_nat (length keys) /\
    0 <= CacheStats.Hits st <= CacheStats.Gets st /\
    0 <= CacheStats.Evictions st /\
    CacheStats.Hits st + CacheStats.Evictions st <= CacheStats.Gets st /\
    forall n, (n <= length keys)%nat ->
      exists g1 env1 st1,
        Group_Gets (take n keys) (new_Group Dispose name cacheNum getter) env
          = Ok (g1, env1) /\
        Group_CacheStats g1 = Ok st1 /\
        CacheStats.Hits st1 <= CacheStats.Gets st1 /\
        CacheStats.Gets st1 <= CacheStats.Gets st /\
        CacheStats.Hits st1 <= CacheStats.Hits st /\
        CacheStats.Evictions st1 <= CacheStats.Evictions st.
Proof.
  intros Hlen Hrun.
  pose proof (counted_new_Group Dispose name cacheNum getter) as Hc0.
  assert (Hsnap : forall g n, counted Dispose n (mainCache g) ->
            exists st, Group_CacheStats g = Ok st /\
              CacheStats.Gets st = nget (mainCache g) /\
              CacheStats.Hits st = nhit (mainCache g) /\
              CacheStats.Evictions st = nevict (mainCache g)).
  { intros g n ((l & Hl & _) & _).
    unfold Group_CacheStats, cache_stats, cache_itemsLocked. rewrite Hl. simpl.
    by eexists. }
  destruct (Group_Gets_counted Dispose keys (new_Group Dispose name cacheNum getter)
              env g' env' 0 Hc0) as (Hc & _);
    [unfold Int64.max; lia|done|].
  destruct (Hsnap g' _ Hc) as (st & Hst & Hg & Hh & He).
  pose proof Hc as (_ & Hng & Hh0 & He0 & Hsum).
  exists st. rewrite Hg, Hh, He. split_and!; try done; try lia.
  intros n Hn.
  rewrite <- (take_drop n keys) in Hrun. rewrite Group_Gets_app in Hrun.
  destruct (Group_Gets (take n keys) _ env) as [[g1 env1]|] eqn:Hrun1; [|done].
  simpl in Hrun.
  assert (Hlen1 : length (take n keys) = n) by (rewrite length_take; lia).
  assert (Hlen2 : length (drop n keys) = (length keys - n)%nat) by apply length_drop.
  destruct (Group_Gets_counted Dispose (take n keys)
              (new_Group Dispose name cacheNum getter) env g1 env1 0 Hc0) as (Hc1 & _);
    [unfold Int64.max; lia|done|].
  destruct (Group_Gets_counted Dispose (drop n keys) g1 env1 g' env' _ Hc1)
    as (_ & Hmg & Hmh & Hme);
    [unfold Int64.max; lia|done|].
  destruct (Hsnap g1 _ Hc1) as (st1 & Hst1 & Hg1 & Hh1 & He1).
  pose proof Hc1 as (_ & Hng1 & Hh01 & He01 & Hsum1).
  exists g1, env1, st1. rewrite Hg1, Hh1, He1. split_and!; try done; lia.
Qed.
End statistics.

(** ** The registry *)

Section registry.
Context {V World : Type} (Dispose : V -> World -> World * error).
Implicit Types (σ : @State V World) (getter gtr : @Getter V World)
  (fn : @Hook V World) (name : string)
  (specs : list (string * Z * @Getter V World)).

(** The state in which the creation hook runs: the new group is on the
    heap and the registry is still the one [NewGroup] found. *)
Lemma NewGroup_fresh name cacheNum getter σ :
  groups σ !! name = None ->
  NewGroup Dispose name cacheNum getter σ =
  Ok (length (heap σ),
      mkState (newGroupHook σ) (<[name := length (heap σ)]> (groups σ))
        (heap σ ++ [new_Group Dispose name cacheNum getter])
        match newGroupHook σ with
        | Some fn =>
            mkEnv (fn (length (heap σ)) (groups σ)
                     (heap σ ++ [new_Group Dispose name cacheNum getter])
                     (world (env σ)))
                  (calls (env σ) ++ [CallHook (length (heap σ))])
        | None => env σ
        end).
Proof.
  intros Hfresh. unfold NewGroup. rewrite Hfresh. simpl.
  by destruct (newGroupHook σ).
Qed.

Lemma NewGroup_duplicate name cacheNum getter σ g0 :
  groups σ !! name = Some g0 ->
  NewGroup Dispose name cacheNum getter σ =
  Panic ("duplicate registration of group " +:+ name).
Proof. intros Hdup. unfold NewGroup. by rewrite Hdup. Qed.

(** Groups created under distinct fresh names take the next heap
    locations in turn. *)
Lemma NewGroups_fresh specs σ :
  NoDup (names_of specs) ->
  (forall name, name ∈ names_of specs -> groups σ !! name = None) ->
  exists σ',
    NewGroups Dispose specs σ = Ok (seq (length (heap σ)) (length specs), σ') /\
    heap σ' = heap σ ++ (group_of Dispose <$> specs) /\
    newGroupHook σ' = newGroupHook σ /\
    (forall i spec, specs !! i = Some spec ->
       groups σ' !! spec.1.1 = Some (length (heap σ) + i)%nat) /\
    (forall name, name ∉ names_of specs -> groups σ' !! name = groups σ !! name).
Proof.
  revert σ. induction specs as [|[[name cacheNum] getter] specs IH]; intros σ Hnd Hfresh.
  - exists σ. simpl. rewrite app_nil_r. by split_and!.
  - unfold names_of in *. rewrite fmap_cons in Hnd, Hfresh. simpl in Hnd, Hfresh.
    apply NoDup_cons in Hnd as [Hname Hnd].
    cbn [NewGroups]. rewrite NewGroup_fresh by (apply Hfresh; apply elem_of_cons; by left).
    cbn [mbind result_bind].
    set (σ1 := mkState _ _ _ _).
    destruct (IH σ1 Hnd) as (σ' & Hrun & Hheap & Hhook & Hin & Hout).
    { intros name' Hin'. unfold σ1. simpl. rewrite lookup_insert_ne.
      - apply Hfresh. apply elem_of_cons. by right.
      - intros ->. done. }
    exists σ'. rewrite Hrun. unfold σ1 in *. simpl in *.
    rewrite length_app in *. simpl in *. rewrite Nat.add_1_r in *.
    split_and!; try done.
    + rewrite Hheap, <- app_assoc. done.
    + intros [|i] spec Hspec; simpl in Hspec.
      * injection Hspec as <-. simpl. rewrite Hout by done.
        rewrite lookup_insert_eq. f_equal. lia.
      * rewrite (Hin i spec Hspec). f_equal. lia.
    + intros name' Hnot. apply not_elem_of_cons in Hnot as [Hne Hnot].
      rewrite Hout by done. by rewrite lookup_insert_ne.
Qed.

(** C6, amended.  Creating a group under a fresh name returns the next
    heap location; the group there has the given name and getter and an
    initialised, empty cache of the given capacity with all counters at
    zero; the name is registered to it from then on and no other name is
    touched.  If a creation hook is installed it is called exactly once,
    with the new group, before [NewGroup] returns, and it runs BEFORE the
    registration: the registry it runs in has no entry for the name. *)
Theorem NewGroup_creates_then_hooks_then_registers name cacheNum gtr σ :
  groups σ !! name = None ->
  exists σ',
    NewGroup Dispose name cacheNum gtr σ = Ok (length (heap σ), σ') /\
    heap σ' = heap σ ++ [new_Group Dispose name cacheNum gtr] /\
    heap σ' !! length (heap σ) = Some (new_Group Dispose name cacheNum gtr) /\
    Group_Name (new_Group Dispose name cacheNum gtr) = name /\
    getter (new_Group Dispose name cacheNum gtr) = gtr /\
    entries (mainCache (new_Group Dispose name cacheNum gtr)) = [] /\
    lru.MaxEntries <$> lru (mainCache (new_Group Dispose name cacheNum gtr))
      = Some cacheNum /\
    cache_ok Dispose (mainCache (new_Group Dispose name cacheNum gtr)) /\
    Group_CacheStats (new_Group Dispose name cacheNum gtr)
      = Ok (CacheStats.mk 0 0 0 0) /\
    Stats (new_Group Dispose name cacheNum gtr) = Stats.zero /\
    GetGroup name σ' = Some (length (heap σ)) /\
    (forall name', name' <> name -> GetGroup name' σ' = GetGroup name' σ) /\
    newGroupHook σ' = newGroupHook σ /\
    match newGroupHook σ with
    | None => env σ' = env σ
    | Some fn =>
        exists reg,
          reg = groups σ /\ reg !! name = None /\
          env σ' = mkEnv (fn (length (heap σ)) reg (heap σ') (world (env σ)))
                     (calls (env σ) ++ [CallHook (length (heap σ))])
    end.
Proof.
  intros Hfresh. eexists. split; [by apply NewGroup_fresh|]. simpl.
  split_and!; try done.
  - by rewrite lookup_app_r, Nat.sub_diag.
  - apply cache_ok_init.
  - unfold GetGroup. simpl. apply lookup_insert_eq.
  - intros name' Hne. unfold GetGroup. simpl. by rewrite lookup_insert_ne.
  - destruct (newGroupHook σ) as [fn|]; [|done]. by exists (groups σ).
Qed.

(** C7. Faults and lookups of the registry.  Creating a group under a
    name that is registered panics, and so does registering a creation
    hook when one is installed: a panic, not an error value (neither
    function has an error result).  Creating groups under distinct fresh
    names succeeds for each of them, the groups get distinct locations,
    and afterwards [GetGroup] of each name returns the group created for
    that name. *)
Theorem registry_faults_and_lookups name cacheNum getter σ g0
    σh fn0 (fn : option (@Hook V World)) specs σs :
  groups σ !! name = Some g0 ->
  newGroupHook σh = Some fn0 ->
  NoDup (names_of specs) ->
  (forall name', name' ∈ names_of specs -> groups σs !! name' = None) ->
  NewGroup Dispose name cacheNum getter σ
    = Panic ("duplicate registration of group " +:+ name) /\
  RegisterNewGroupHook fn σh = Panic "RegisterNewGroupHook called more than once" /\
  exists gs σ',
    NewGroups Dispose specs σs = Ok (gs, σ') /\
    NoDup gs /\ length gs = length specs /\
    forall i spec, specs !! i = Some spec ->
      exists g,
        gs !! i = Some g /\
        GetGroup spec.1.1 σ' = Some g /\
        heap σ' !! g = Some (group_of Dispose spec) /\
        Group_Name (group_of Dispose spec) = spec.1.1.
Proof.
  intros Hdup Hhook Hnd Hfresh. split_and!.
  - by eapply NewGroup_duplicate.
  - unfold RegisterNewGroupHook. by rewrite Hhook.
  - destruct (NewGroups_fresh specs σs Hnd Hfresh) as (σ' & Hrun & Hheap & _ & Hin & _).
    exists (seq (length (heap σs)) (length specs)), σ'.
    split_and!; [done|apply NoDup_seq|apply length_seq|].
    intros i spec Hspec. exists (length (heap σs) + i)%nat.
    pose proof (lookup_lt_Some _ _ _ Hspec) as Hi.
    split_and!.
    + by apply lookup_seq.
    + by apply Hin.
    + rewrite Hheap, lookup_app_r by lia.
      replace (length (heap σs) + i - length (heap σs))%nat with i by lia.
      by rewrite list_lookup_fmap, Hspec.
    + done.
Qed.
End registry.

(** * Worked instances *)

(** The nil interface is not a value: a getter that returns it without an
    error makes the next [Get] of that key panic in the type assertion of
    [cache.get], and the eviction of its entry panic in the hook. *)
Example nil_value_panics_on_hit :
  (r ← Group_Get "a" (Demo.fresh 1 Demo.hollow) Demo.env0;
   Group_Get "a" r.1.2 r.2) = Panic nil_conversion.
Proof. reflexivity. Qed.

Example nil_value_panics_on_eviction :
  (r ← Group_Get "a" (Demo.fresh 1 Demo.hollow) Demo.env0;
   Group_Get "b" r.1.2 r.2) = Panic nil_conversion.
Proof. reflexivity. Qed.

(** The scenario of the spec: capacity 2, keys "a", "b", "c" in order,
    all misses.  Two entries are resident, one eviction occurred, and the
    value loaded for "a" is the one disposed of. *)
Example three_keys_capacity_two :
  exists g' env',
    Group_Gets ["a"; "b"; "c"] (new_Group Demo.Dispose "demo" 2 (Some Demo.loader))
      Demo.env0 = Ok (g', env') /\
    Group_CacheStats g' = Ok (CacheStats.mk 2 3 0 1) /\
    entries (mainCache g') = [Demo.entry "c" "val:c"; Demo.entry "b" "bad"] /\
    world env' = ["val:a"] /\
    calls env' = [CallGetter "a"; CallGetter "b"; CallGetter "c"; CallDispose "val:a"].
Proof. eexists _, _. split; [reflexivity|]. by split_and!. Qed.

Lemma Demo_g1 :
  Group_Get "a" (Demo.fresh 2 Demo.loader) Demo.env0
  = Ok ((Some "val:a", None), Demo.g1, Demo.env1).
Proof. reflexivity. Qed.

Lemma Demo_g2 :
  Group_Get "c" Demo.g1 Demo.env1 = Ok ((Some "val:c", None), Demo.g2, Demo.env2).
Proof. reflexivity. Qed.

(** C1 at work: one more key on a full cache of capacity one, and three
    keys into a fresh cache of capacity two. *)
Lemma eviction_disposes_once_witness :
  cache_ok Demo.Dispose (Demo.cache_with 1 [Demo.entry "b" "bad"] 0 1 0) /\
  (forall key0 x n (env1 : @Env Demo.V Demo.World),
     onEvicted Demo.Dispose key0 (Some x) (n, env1) =
     Ok (Int64.add n 1,
         mkEnv (Demo.Dispose x (world env1)).1 (calls env1 ++ [CallDispose x]))) /\
  (exists c' env' (evicted : list (string * Demo.V)),
     cache_add "c" (Some "val:c") (Demo.cache_with 1 [Demo.entry "b" "bad"] 0 1 0)
       Demo.env0 = Ok (c', env') /\
     lru.mkEntry "c" (Some "val:c")
       :: entries (Demo.cache_with 1 [Demo.entry "b" "bad"] 0 1 0)
       ≡ₚ entries c' ++ map entry_of evicted /\
     env' = dispose_all Demo.Dispose (map snd evicted) Demo.env0 /\
     calls env' = calls Demo.env0 ++ map CallDispose (map snd evicted) /\
     nevict c' = incr (length evicted) 0) /\
  (exists c' env' x,
     cache_adds [("a", "va"); ("b", "vb"); ("c", "vc")]
       (cache_init Demo.Dispose 2 zero_cache) Demo.env0 = Ok (c', env') /\
     Z.of_nat (length (entries c')) = 2 /\
     cache_stats c' = Ok (CacheStats.mk 2 0 0 1) /\
     x ∈ [("a", "va"); ("b", "vb"); ("c", "vc")].*2 /\
     calls env' = calls Demo.env0 ++ [CallDispose x]).
Proof.
  assert (Hok : cache_ok Demo.Dispose (Demo.cache_with 1 [Demo.entry "b" "bad"] 0 1 0)).
  { split; [by eexists|]. repeat constructor. by eexists. }
  split; [exact Hok|].
  apply (eviction_disposes_once Demo.Dispose "c" "val:c" _ Demo.env0 2
           [("a", "va"); ("b", "vb"); ("c", "vc")] Demo.env0 Hok).
  - lia.
  - apply (bool_decide_unpack _). by vm_compute.
  - reflexivity.
Defined.

(** C2 at work: the scenario of the spec, a getter that knows no "x". *)
Lemma Get_propagates_load_failure_witness :
  exists g',
    Group_Get "x" Demo.g1 Demo.env1
      = Ok ((None, Some "not found"), g', mkEnv [] [CallGetter "a"; CallGetter "x"]) /\
    lru (mainCache g') = lru (mainCache Demo.g1) /\
    entries (mainCache g') = entries (mainCache Demo.g1) /\
    cache_lookup "x" (mainCache g') = None /\
    nget (mainCache g') = 2 /\
    nhit (mainCache g') = 0 /\
    Stats.Gets (Stats g') = 2 /\
    Stats.CacheHits (Stats g') = 0.
Proof.
  destruct (Get_propagates_load_failure "x" Demo.g1 Demo.env1 _ Demo.loader None
              "not found" [] eq_refl eq_refl eq_refl eq_refl)
    as (g' & Hget & Hlru & Hent & Hnone & Hng & Hnh & _ & Hsg & Hsh & _).
  exists g'. by split_and!.
Defined.

(** C3 at work: the first [Get] of "a" on a fresh group. *)
Lemma Get_inserts_loaded_value_witness :
  exists g' env',
    Group_Get "a" (Demo.fresh 2 Demo.loader) Demo.env0
      = Ok ((Some "val:a", None), g', env') /\
    cache_lookup "a" (mainCache g') = Some (Some "val:a").
Proof.
  destruct (Get_inserts_loaded_value Demo.Dispose "a" (Demo.fresh 2 Demo.loader)
              Demo.env0 Demo.loader "val:a" []
              (cache_ok_init Demo.Dispose 2 zero_cache) eq_refl eq_refl eq_refl)
    as (g' & env' & evicted & Hget & _ & _ & _ & Hres & _).
  exists g', env'. split; [exact Hget|]. by eapply Hres.
Defined.

(** C4 at work: "a" is loaded, "c" is loaded, "a" is still there. *)
Lemma Get_hits_after_load_witness :
  exists g3,
    Group_Get "a" Demo.g2 Demo.env2 = Ok ((Some "val:a", None), g3, Demo.env2) /\
    Stats.CacheHits (Stats g3) = Int64.add (Stats.CacheHits (Stats Demo.g2)) 1 /\
    nhit (mainCache g3) = Int64.add (nhit (mainCache Demo.g2)) 1 /\
    Stats.Gets (Stats g3) = Int64.add (Stats.Gets (Stats Demo.g2)) 1 /\
    nget (mainCache g3) = Int64.add (nget (mainCache Demo.g2)) 1 /\
    resident "a" g3.
Proof.
  apply (Get_hits_after_load "a" (Demo.fresh 2 Demo.loader) Demo.env0 "val:a"
           Demo.g1 Demo.env1 Demo.g2 Demo.env2).
  - reflexivity.
  - exact Demo_g1.
  - by eexists.
  - eapply kept_step; [exact Demo_g2|by eexists|apply kept_refl].
Defined.

(** C10 at work: a hit on "a". *)
Lemma Get_hit_changes_counters_only_witness :
  exists g',
    Group_Get "a" Demo.g2 Demo.env2 = Ok ((Some "val:a", None), g', Demo.env2) /\
    entries (mainCache g') ≡ₚ entries (mainCache Demo.g2) /\
    nevict (mainCache g') = nevict (mainCache Demo.g2) /\
    name g' = name Demo.g2 /\ getter g' = getter Demo.g2.
Proof.
  destruct (Get_hit_changes_counters_only "a" Demo.g2 Demo.env2 "val:a" eq_refl)
    as (g' & Hget & Hperm & _ & _ & _ & Hne & Hname & Hgetter & _).
  exists g'. by split_and!.
Defined.

(** C8 at work: the value "bad" fails to dispose when "c" pushes it out. *)
Lemma Dispose_failure_is_not_propagated_witness :
  Demo.Dispose "bad" [] = (["bad"], Some "dispose failed") /\
  exists g',
    Group_Get "c"
      (mkGroup "demo" (Some Demo.loader) (mkCacheW (Some Demo.full) 0 1 0) (Stats.mk 1 0))
      (mkEnv [] [CallGetter "b"])
    = Ok ((Some "val:c", None), g',
          mkEnv ["bad"] [CallGetter "b"; CallGetter "c"; CallDispose "bad"]) /\
    nevict (mainCache g') = 1.
Proof.
  split; [reflexivity|].
  destruct (Dispose_failure_is_not_propagated Demo.Dispose "c" "val:c" Demo.full
              "b" "bad" [] ["bad"] (Some "dispose failed") eq_refl eq_refl eq_refl)
    as [_ Hget].
  destruct (Hget (mkGroup "demo" (Some Demo.loader) (mkCacheW (Some Demo.full) 0 1 0)
                    (Stats.mk 1 0))
              (mkEnv [] [CallGetter "b"]) Demo.loader eq_refl eq_refl eq_refl eq_refl)
    as (g' & Hg' & Hn & _).
  exists g'. split; [exact Hg'|exact Hn].
Defined.

(** A run of [n] failing loads leaves [n], wrapped, in the gets counter. *)
Lemma failing_run_stats n :
  exists g' env',
    Group_Gets (repeat "x" n) (new_Group Demo.Dispose "demo" 1 (Some Demo.failing))
      Demo.env0 = Ok (g', env') /\
    Group_CacheStats g' = Ok (CacheStats.mk 0 (Int64.wrap (Z.of_nat n)) 0 0).
Proof.
  eexists _, _. split.
  - eapply (Group_Gets_failing "x" n _ _ _ Demo.failing "not found"); reflexivity.
  - unfold Group_CacheStats, cache_stats, cache_itemsLocked.
    cbn [mainCache lru nget nhit nevict new_Group cache_init zero_cache].
    cbn [mbind result_bind]. rewrite incr_wrap by (by vm_compute). reflexivity.
Qed.

(** C5 as stated fails: the counters are [int64] and wrap around.  After
    2^63 calls of [Get] (here: of a key whose load fails, on a fresh
    group) the snapshot of [CacheStats] shows [Gets = -2^63] below
    [Hits = 0], and below the [Gets] of every earlier snapshot. *)
Lemma counters_wrap_around :
  exists g' env' st,
    Group_Gets (repeat "x" (Z.to_nat (2 ^ 63)))
      (new_Group Demo.Dispose "demo" 1 (Some Demo.failing)) Demo.env0 = Ok (g', env') /\
    Group_CacheStats g' = Ok st /\
    CacheStats.Gets st = - 2 ^ 63 /\
    CacheStats.Hits st = 0 /\
    ~ (CacheStats.Hits st <= CacheStats.Gets st).
Proof.
  destruct (failing_run_stats (Z.to_nat (2 ^ 63))) as (g' & env' & Hrun & Hst).
  rewrite Z2Nat.id in Hst by lia.
  change (Int64.wrap (2 ^ 63)) with (- 2 ^ 63) in Hst.
  exists g', env', (CacheStats.mk 0 (- 2 ^ 63) 0 0).
  split_and!; [exact Hrun|exact Hst|reflexivity|reflexivity|].
  cbn [CacheStats.Hits CacheStats.Gets]. lia.
Qed.

(** C5, amended, at work: three calls, one of them a hit. *)
Lemma counters_monotone_below_wrap_witness :
  exists st,
    Group_CacheStats Demo.g3 = Ok st /\
    CacheStats.Gets st = 3 /\
    0 <= CacheStats.Hits st <= CacheStats.Gets st /\
    0 <= CacheStats.Evictions st /\
    CacheStats.Hits st + CacheStats.Evictions st <= CacheStats.Gets st.
Proof.
  destruct (counters_monotone_below_wrap Demo.Dispose "demo" 2 (Some Demo.loader)
              ["a"; "c"; "a"] Demo.env0 Demo.g3 Demo.env2 ltac:(simpl; lia) eq_refl)
    as (st & Hst & Hg & Hh & He & Hsum & _).
  exists st. split_and!; try done; simpl in Hg; lia.
Defined.

(** C9 at work: the same three calls, and the last of them, a hit that
    moves all four counters. *)
Lemma Stats_agree_with_CacheStats_witness :
  (Stats.Gets (Stats Demo.g3) = AtomicInt_Add (Stats.Gets (Stats Demo.g2)) 1 /\
   nget (mainCache Demo.g3) = Int64.add (nget (mainCache Demo.g2)) 1 /\
   Stats.CacheHits (Stats Demo.g3)
     = AtomicInt_Add (Stats.CacheHits (Stats Demo.g2)) 1 /\
   nhit (mainCache Demo.g3) = Int64.add (nhit (mainCache Demo.g2)) 1) /\
  exists g' env' st,
    Group_Gets ["a"; "c"; "a"] (new_Group Demo.Dispose "demo" 2 (Some Demo.loader))
      Demo.env0 = Ok (g', env') /\
    Group_CacheStats g' = Ok st /\
    AtomicInt_Get (Stats.Gets (Stats g')) = CacheStats.Gets st /\
    AtomicInt_Get (Stats.CacheHits (Stats g')) = CacheStats.Hits st /\
    CacheStats.Gets st = 3.
Proof.
  destruct (Stats_agree_with_CacheStats Demo.Dispose "demo" 2 (Some Demo.loader)
              ["a"; "c"; "a"] Demo.env0) as (Hcall & Hagree & Htotal).
  split.
  - destruct (Hcall "a" Demo.g2 Demo.env2 (Some "val:a", None) Demo.g3 Demo.env2 eq_refl)
      as (Hsg & Hng & Hhit & _).
    destruct (Hhit ltac:(by eexists)) as (Hsh & Hnh). by split_and!.
  - destruct (Htotal Demo.loader eq_refl) as (g' & env' & Hrun).
    { intros key w. unfold Demo.loader.
      destruct (String.eqb key "x"); [|destruct (String.eqb key "b")]; simpl.
      - discriminate.
      - by eexists.
      - by eexists. }
    destruct (Hagree g' env' Hrun) as (st & Hst & Hg & Hh & Hn).
    by exists g', env', st.
Defined.

(** C6 as stated fails in its last part: the hook runs before the
    registration.  With the hook [Demo.probe], which notes whether "a" is
    registered at the moment it runs, creating the group "a" leaves the
    note "unregistered", although "a" is registered once [NewGroup] has
    returned. *)
Lemma hook_runs_before_registration :
  RegisterNewGroupHook (Some Demo.probe) Demo.state0 = Ok Demo.hooked /\
  exists g σ',
    NewGroup Demo.Dispose "a" 2 (Some Demo.loader)
      Demo.hooked = Ok (g, σ') /\
    GetGroup "a" σ' = Some g /\
    calls (env σ') = [CallHook g] /\
    world (env σ') = ["unregistered"].
Proof.
  split; [reflexivity|]. eexists _, _. split.
  - by apply NewGroup_fresh.
  - simpl. by split_and!.
Qed.

(** C6, amended, at work: the same creation. *)
Lemma NewGroup_creates_then_hooks_then_registers_witness :
  exists σ',
    NewGroup Demo.Dispose "a" 2 (Some Demo.loader)
      Demo.hooked = Ok (0%nat, σ') /\
    heap σ' = [new_Group Demo.Dispose "a" 2 (Some Demo.loader)] /\
    GetGroup "a" σ' = Some 0%nat /\
    exists reg,
      reg = ∅ /\ reg !! "a" = None /\
      env σ' = mkEnv (Demo.probe 0%nat reg (heap σ') []) [CallHook 0%nat].
Proof.
  destruct (NewGroup_creates_then_hooks_then_registers Demo.Dispose "a" 2
              (Some Demo.loader) Demo.hooked (lookup_empty _))
    as (σ' & Hnew & Hheap & _ & _ & _ & _ & _ & _ & _ & _ & Hget & _ & _ & Hhook).
  exists σ'. by split_and!.
Defined.

(** C7 at work, on the registry that holds "a" and a hook: "a" again and
    a second hook panic, "b" and "c" are created and found. *)
Lemma registry_faults_and_lookups_witness :
  NewGroup Demo.Dispose "a" 5 (Some Demo.failing) Demo.state1
    = Panic "duplicate registration of group a" /\
  RegisterNewGroupHook None Demo.state1
    = Panic "RegisterNewGroupHook called more than once" /\
  exists gs σ',
    NewGroups Demo.Dispose [("b", 1, Some Demo.loader); ("c", 3, Some Demo.failing)]
      Demo.state1 = Ok (gs, σ') /\
    NoDup gs /\ length gs = 2%nat /\
    forall i spec,
      [("b", 1, Some Demo.loader); ("c", 3, Some Demo.failing)] !! i = Some spec ->
      exists g,
        gs !! i = Some g /\
        GetGroup spec.1.1 σ' = Some g /\
        heap σ' !! g = Some (group_of Demo.Dispose spec) /\
        Group_Name (group_of Demo.Dispose spec) = spec.1.1.
Proof.
  apply (registry_faults_and_lookups Demo.Dispose "a" 5 (Some Demo.failing)
           Demo.state1 0%nat Demo.state1 Demo.probe None
           [("b", 1, Some Demo.loader); ("c", 3, Some Demo.failing)] Demo.state1).
  - reflexivity.
  - reflexivity.
  - apply (bool_decide_unpack _). by vm_compute.
  - intros name' Hin. unfold names_of in Hin. simpl in Hin.
    apply elem_of_cons in Hin as [->|Hin]; [reflexivity|].
    apply list_elem_of_singleton in Hin as ->. reflexivity.
Defined.

(** * Further properties *)

(** ** Accounts of a run of [Get] calls *)

Section accounts.
Context {V World : Type} (Dispose : V -> World -> World * error).
Implicit Types (c : @cache V World) (env : @Env V World) (v x : V)
  (g : @Group V World) (f : @GetterFunc V World)
  (l : lru.Cache V (@HookState V World)) (key : string) (value : @Value V)
  (cs : list (@Call V)).

Lemma getter_calls_app cs1 cs2 :
  getter_calls (cs1 ++ cs2) = (getter_calls cs1 + getter_calls cs2)%nat.
Proof.
  induction cs1 as [|[] cs1 IH]; simpl; [done|by rewrite IH..].
Qed.

Lemma dispose_calls_app cs1 cs2 :
  dispose_calls (cs1 ++ cs2) = (dispose_calls cs1 + dispose_calls cs2)%nat.
Proof.
  induction cs1 as [|[] cs1 IH]; simpl; [done|by rewrite IH..].
Qed.

Lemma remove_length key (es : list (lru.entry V)) old :
  lru.find key es = Some old ->
  length (lru.mkEntry key old :: lru.remove key es) = length es.
Proof. intros Hf. by rewrite (front_Permutation _ _ _ Hf). Qed.

(** What the installed hook leaves behind. *)
Lemma notify_installed_env l (e : lru.entry V) n env n' env' :
  lru.OnEvicted l = Some (onEvicted Dispose) ->
  lru.notify l e (n, env) = Ok (n', env') ->
  n' = Int64.add n 1 /\ exists x, calls env' = calls env ++ [CallDispose x].
Proof.
  unfold lru.notify. intros ->. destruct (lru.value e) as [x|]; [|done].
  rewrite onEvicted_value, call_Dispose_env. simpl. intros [= <- <-].
  split; [done|]. by exists x.
Qed.

(** The four ways of a returning [Get], with what each does to the
    counters, to the number of resident entries and to the record of
    calls. *)
Lemma Group_Get_accounts key g env r g' env' :
  installed Dispose (mainCache g) ->
  Group_Get key g env = Ok (r, g', env') ->
  (nhit (mainCache g') = Int64.add (nhit (mainCache g)) 1 /\
   nevict (mainCache g') = nevict (mainCache g) /\
   resident_count (mainCache g') = resident_count (mainCache g) /\
   calls env' = calls env) \/
  (nhit (mainCache g') = nhit (mainCache g) /\
   nevict (mainCache g') = nevict (mainCache g) /\
   resident_count (mainCache g') = resident_count (mainCache g) /\
   r.2 <> None /\
   calls env' = calls env ++ [CallGetter key]) \/
  (nhit (mainCache g') = nhit (mainCache g) /\
   nevict (mainCache g') = nevict (mainCache g) /\
   resident_count (mainCache g') = resident_count (mainCache g) + 1 /\
   r.2 = None /\
   calls env' = calls env ++ [CallGetter key]) \/
  (nhit (mainCache g') = nhit (mainCache g) /\
   nevict (mainCache g') = Int64.add (nevict (mainCache g)) 1 /\
   resident_count (mainCache g') = resident_count (mainCache g) /\
   r.2 = None /\
   exists x, calls env' = calls env ++ [CallGetter key; CallDispose x]).
Proof.
  intros (l0 & Hl0 & Hh) Hget. destruct r as [value err].
  apply Group_Get_inv in Hget as (l & Hl & _ & _ & _ & _ & Hcase).
  rewrite Hl in Hl0. injection Hl0 as <-.
  unfold resident_count, entries. rewrite Hl.
  destruct Hcase as [(x & Hf & _ & _ & -> & Hc & _)|
                     [(f & w & msg & _ & _ & _ & -> & -> & Hc & _)|
                      (f & w & Hf & _ & _ & -> & Hadd & _)]].
  - left. rewrite Hc. cbn [lru nhit nevict lru.ll lru.set_ll].
    rewrite (remove_length _ _ _ Hf). by split_and!.
  - right. left. rewrite Hc. simpl. by split_and!.
  - right. right.
    apply cache_add_inv in Hadd
      as (l1 & l' & Hl1 & Hl' & _ & _ & Hnh & _ & Hcase).
    simpl in Hl1. injection Hl1 as <-. rewrite Hl'. simpl in *.
    destruct Hcase as [(old & Hf' & _)|[(_ & Hll & -> & Hne)|(_ & _ & old & Hll & Hn)]].
    + congruence.
    + left. rewrite Hll. simpl. split_and!; try done. lia.
    + right. apply notify_installed_env in Hn as (Hne & x & Hcalls); [|done].
      split_and!; try done.
      * apply (f_equal (@length _)) in Hll. rewrite length_app in Hll.
        simpl in Hll. f_equal. lia.
      * exists x. rewrite Hcalls. simpl. by rewrite <- app_assoc.
Qed.

(** The books of a run that stays below the wrap-around: getter calls
    against misses, [Dispose] calls against evictions, and entries, resident
    or evicted, against misses. *)
Lemma Group_Gets_accounts keys g env g' env' n :
  counted Dispose n (mainCache g) ->
  n + Z.of_nat (length keys) <= Int64.max ->
  Group_Gets keys g env = Ok (g', env') ->
  Z.of_nat (getter_calls (calls env')) - Z.of_nat (getter_calls (calls env))
    = (nget (mainCache g') - nhit (mainCache g'))
      - (nget (mainCache g) - nhit (mainCache g)) /\
  Z.of_nat (dispose_calls (calls env')) - Z.of_nat (dispose_calls (calls env))
    = nevict (mainCache g') - nevict (mainCache g) /\
  (resident_count (mainCache g') + nevict (mainCache g'))
    - (resident_count (mainCache g) + nevict (mainCache g))
    <= (nget (mainCache g') - nhit (mainCache g'))
       - (nget (mainCache g) - nhit (mainCache g)).
Proof.
  revert g env n. induction keys as [|key keys IH]; intros g env n Hc Hn; simpl.
  - intros [= <- <-]. lia.
  - destruct (Group_Get key g env) as [[[r g1] env1]|] eqn:Hget; [|done]. simpl.
    intros Hrun. simpl length in Hn. unfold Int64.max in Hn.
    destruct (Group_Get_counted Dispose _ _ _ _ _ _ _ Hc ltac:(unfold Int64.max; lia) Hget)
      as (Hc1 & _ & _).
    destruct (IH g1 env1 (n + 1) Hc1 ltac:(unfold Int64.max; lia) Hrun)
      as (IHg & IHd & IHr).
    destruct Hc as (Hinst & Hng & Hh0 & He0 & Hsum).
    destruct Hc1 as (_ & Hng1 & _).
    assert (Hadd : forall z, 0 <= z <= n -> Int64.add z 1 = z + 1).
    { intros z Hz. apply add_small. unfold Int64.in_range, Int64.min, Int64.max. lia. }
    destruct (Group_Get_accounts _ _ _ _ _ _ Hinst Hget)
      as [(Hh & He & Hr & Hcs)|[(Hh & He & Hr & _ & Hcs)|
          [(Hh & He & Hr & _ & Hcs)|(Hh & He & Hr & _ & x & Hcs)]]];
      rewrite ?Hadd in * by lia;
      rewrite Hcs, ?getter_calls_app, ?dispose_calls_app in *; simpl in *; lia.
Qed.

(** X1. [Get] calls are counted modulo 2^64.  After any returning run of
    [Get] calls on a group as [NewGroup] makes it, the atomic [Stats.Gets]
    and the [Gets] of [CacheStats] both hold the number of calls, wrapped
    to [int64]: exactly the number of calls while there are fewer than
    2^63 of them. *)
Theorem Get_calls_are_counted name cacheNum (getter : @Getter V World) keys env g' env' :
  Group_Gets keys (new_Group Dispose name cacheNum getter) env = Ok (g', env') ->
  AtomicInt_Get (Stats.Gets (Stats g')) = Int64.wrap (Z.of_nat (length keys)) /\
  (exists st, Group_CacheStats g' = Ok st /\
     CacheStats.Gets st = Int64.wrap (Z.of_nat (length keys))) /\
  (Z.of_nat (length keys) < 2 ^ 63 ->
     AtomicInt_Get (Stats.Gets (Stats g')) = Z.of_nat (length keys)).
Proof.
  intros Hrun.
  assert (Hinst : installed Dispose (mainCache (new_Group Dispose name cacheNum getter)))
    by (by eexists).
  destruct (Group_Gets_gets Dispose _ _ _ _ _ Hinst Hrun) as (Hsg & Hng).
  destruct (Group_Gets_parity Dispose _ _ _ _ _ Hinst Hrun (parity_new_Group _ _ _ _))
    as ((l & Hl & _) & _).
  rewrite incr_wrap in Hsg, Hng by (by vm_compute). simpl in Hsg, Hng.
  unfold AtomicInt_Get. split_and!; [done| |].
  - unfold Group_CacheStats, cache_stats, cache_itemsLocked. rewrite Hl. simpl.
    by eexists.
  - intros Hlen. rewrite Hsg. apply wrap_small.
    unfold Int64.in_range, Int64.min, Int64.max. lia.
Qed.

(** X2. The getter is called exactly once per miss.  On a group as
    [NewGroup] makes it and over fewer than 2^63 [Get] calls, the number
    of getter calls in the record is [Gets - Hits] of the snapshot: one
    call for each miss, none for a hit. *)
Theorem getter_runs_once_per_miss name cacheNum (getter : @Getter V World)
    keys env g' env' :
  Z.of_nat (length keys) < 2 ^ 63 ->
  Group_Gets keys (new_Group Dispose name cacheNum getter) env = Ok (g', env') ->
  exists st,
    Group_CacheStats g' = Ok st /\
    Z.of_nat (getter_calls (calls env'))
      = Z.of_nat (getter_calls (calls env)) + (CacheStats.Gets st - CacheStats.Hits st).
Proof.
  intros Hlen Hrun.
  pose proof (counted_new_Group Dispose name cacheNum getter) as Hc0.
  destruct (Group_Gets_accounts keys _ env g' env' 0 Hc0 ltac:(unfold Int64.max; lia) Hrun)
    as (Hg & _ & _).
  destruct (Group_Gets_counted Dispose keys _ env g' env' 0 Hc0 ltac:(unfold Int64.max; lia) Hrun)
    as (((l & Hl & _) & _) & _).
  unfold Group_CacheStats, cache_stats, cache_itemsLocked. rewrite Hl. simpl.
  eexists. split; [done|]. simpl in *. lia.
Qed.

(** X3. [Dispose] is called exactly once per counted eviction.  On a
    group as [NewGroup] makes it and over fewer than 2^63 [Get] calls, the
    number of [Dispose] calls in the record is the [Evictions] of the
    snapshot. *)
Theorem Dispose_runs_once_per_eviction name cacheNum (getter : @Getter V World)
    keys env g' env' :
  Z.of_nat (length keys) < 2 ^ 63 ->
  Group_Gets keys (new_Group Dispose name cacheNum getter) env = Ok (g', env') ->
  exists st,
    Group_CacheStats g' = Ok st /\
    Z.of_nat (dispose_calls (calls env'))
      = Z.of_nat (dispose_calls (calls env)) + CacheStats.Evictions st.
Proof.
  intros Hlen Hrun.
  pose proof (counted_new_Group Dispose name cacheNum getter) as Hc0.
  destruct (Group_Gets_accounts keys _ env g' env' 0 Hc0 ltac:(unfold Int64.max; lia) Hrun)
    as (_ & Hd & _).
  destruct (Group_Gets_counted Dispose keys _ env g' env' 0 Hc0 ltac:(unfold Int64.max; lia) Hrun)
    as (((l & Hl & _) & _) & _).
  unfold Group_CacheStats, cache_stats, cache_itemsLocked. rewrite Hl. simpl.
  eexists. split; [done|]. simpl in *. lia.
Qed.

(** X4. Every entry is paid for by a miss.  On a group as [NewGroup]
    makes it and over fewer than 2^63 [Get] calls, [cache.items] and the
    [Items] of [CacheStats] are the number of resident entries, and
    [Items + Evictions + Hits <= Gets]: an entry, resident or evicted,
    came from a miss of its own. *)
Theorem items_are_paid_by_misses name cacheNum (getter : @Getter V World)
    keys env g' env' :
  Z.of_nat (length keys) < 2 ^ 63 ->
  Group_Gets keys (new_Group Dispose name cacheNum getter) env = Ok (g', env') ->
  exists st,
    Group_CacheStats g' = Ok st /\
    cache_items (mainCache g') = Ok (CacheStats.Items st) /\
    CacheStats.Items st = resident_count (mainCache g') /\
    0 <= CacheStats.Items st /\
    CacheStats.Items st + CacheStats.Evictions st + CacheStats.Hits st
      <= CacheStats.Gets st.
Proof.
  intros Hlen Hrun.
  pose proof (counted_new_Group Dispose name cacheNum getter) as Hc0.
  destruct (Group_Gets_accounts keys _ env g' env' 0 Hc0 ltac:(unfold Int64.max; lia) Hrun)
    as (_ & _ & Hr).
  destruct (Group_Gets_counted Dispose keys _ env g' env' 0 Hc0 ltac:(unfold Int64.max; lia) Hrun)
    as (((l & Hl & _) & _) & _).
  unfold Group_CacheStats, cache_stats, cache_items, cache_itemsLocked in *.
  unfold resident_count, entries, lru.Len in *. rewrite Hl in *. simpl in *.
  eexists. split; [done|]. simpl. split_and!; try done; lia.
Qed.
End accounts.

(** ** More on the get-or-load protocol *)

Section more_protocol.
Context {V World : Type} (Dispose : V -> World -> World * error).
Implicit Types (c : @cache V World) (env : @Env V World) (v x : V)
  (g : @Group V World) (f : @GetterFunc V World)
  (l : lru.Cache V (@HookState V World)) (key : string) (value : @Value V).

Lemma getter_calls_disposes (vs : list V) :
  getter_calls (map (@CallDispose V) vs) = 0%nat.
Proof. induction vs as [|v vs IH]; simpl; done. Qed.

(** X5. A failed load is not remembered.  When the load of an absent key
    fails, the next [Get] of that key misses again and calls the getter
    again; if the getter then returns a value, that value is returned
    with a nil error.  The getter was called twice and no hits counter
    moved. *)
Theorem failed_load_is_retried key g env f value msg w v w' :
  cache_ok Dispose (mainCache g) ->
  cache_lookup key (mainCache g) = None ->
  getter g = Some f ->
  f key (world env) = ((value, Some msg), w) ->
  f key w = ((Some v, None), w') ->
  exists g1 g2 env2,
    Group_Get key g env
      = Ok ((value, Some msg), g1, mkEnv w (calls env ++ [CallGetter key])) /\
    Group_Get key g1 (mkEnv w (calls env ++ [CallGetter key]))
      = Ok ((Some v, None), g2, env2) /\
    getter_calls (calls env2) = (2 + getter_calls (calls env))%nat /\
    Stats.CacheHits (Stats g2) = Stats.CacheHits (Stats g) /\
    nhit (mainCache g2) = nhit (mainCache g) /\
    Stats.Gets (Stats g2) = Int64.add (Int64.add (Stats.Gets (Stats g)) 1) 1.
Proof.
  intros Hok Hnone Hg Hfail Hload.
  pose proof Hok as [(l & Hl & Hh) Hall].
  unfold cache_lookup, entries in Hnone, Hall. rewrite Hl in Hnone, Hall.
  set (g1 := mkGroup (name g) (getter g)
               (mkCacheW (Some l) (nhit (mainCache g))
                  (Int64.add (nget (mainCache g)) 1) (nevict (mainCache g)))
               (Stats.mk (Int64.add (Stats.Gets (Stats g)) 1)
                  (Stats.CacheHits (Stats g)))).
  set (env1 := mkEnv w (calls env ++ [CallGetter key])).
  set (c2 := mkCacheW (Some l) (nhit (mainCache g))
               (Int64.add (Int64.add (nget (mainCache g)) 1) 1) (nevict (mainCache g))).
  assert (Hok2 : cache_ok Dispose c2).
  { split; [by exists l|]. unfold entries. simpl. done. }
  destruct (cache_add_ok Dispose key v c2 (mkEnv w' (calls env1 ++ [CallGetter key])) Hok2)
    as (c' & env2 & evicted & Hadd & _ & _ & Henv & _ & Hnh & _).
  exists g1,
    (mkGroup (name g) (getter g) c'
       (Stats.mk (Int64.add (Int64.add (Stats.Gets (Stats g)) 1) 1)
          (Stats.CacheHits (Stats g)))),
    env2.
  split_and!.
  - by eapply Group_Get_fail.
  - erewrite (Group_Get_load key g1 env1 l f (Some v) w') by done.
    unfold g1, env1, c2 in *. simpl in *. rewrite Hadd. done.
  - rewrite Henv, calls_dispose_all. simpl.
    rewrite !getter_calls_app, getter_calls_disposes. simpl. lia.
  - done.
  - simpl. by rewrite Hnh.
  - done.
Qed.

(** X6. [Get] never changes what a group is.  After any returning run of
    [Get] calls the group has the name, the getter and the capacity it had
    before. *)
Theorem Get_keeps_name_getter_capacity keys g env g' env' :
  Group_Gets keys g env = Ok (g', env') ->
  Group_Name g' = Group_Name g /\
  getter g' = getter g /\
  lru.MaxEntries <$> lru (mainCache g') = lru.MaxEntries <$> lru (mainCache g).
Proof.
  revert g env. induction keys as [|key keys IH]; intros g env; simpl.
  - by intros [= <- <-].
  - destruct (Group_Get key g env) as [[[[value err] g1] env1]|] eqn:Hget; [|done].
    simpl. intros Hrun. destruct (IH g1 env1 Hrun) as (Hn & Hg & Hcap).
    apply Group_Get_inv in Hget as (l & Hl & Hn1 & Hg1 & _ & _ & Hcase).
    unfold Group_Name in *. split_and!; [congruence..|].
    rewrite Hcap, Hl.
    destruct Hcase as [(x & _ & _ & _ & _ & -> & _)|
                       [(f & w & msg & _ & _ & _ & _ & _ & -> & _)|
                        (f & w & _ & _ & _ & _ & Hadd & _)]]; [done..|].
    apply cache_add_inv in Hadd as (l1 & l' & Hl1 & -> & Hmax & _).
    simpl in Hl1. injection Hl1 as <-. simpl. by rewrite Hmax.
Qed.
End more_protocol.

(** ** More on the registry *)

Section more_registry.
Context {V World : Type} (Dispose : V -> World -> World * error).
Implicit Types (σ : @State V World) (gtr : @Getter V World)
  (fn : @Hook V World) (name key : string) (g : loc)
  (specs : list (string * Z * @Getter V World)).

Lemma NewGroup_inv name cacheNum gtr σ g σ' :
  NewGroup Dispose name cacheNum gtr σ = Ok (g, σ') ->
  groups σ !! name = None /\
  g = length (heap σ) /\
  newGroupHook σ' = newGroupHook σ /\
  groups σ' = <[name := g]> (groups σ) /\
  heap σ' = heap σ ++ [new_Group Dispose name cacheNum gtr] /\
  env σ' = match newGroupHook σ with
           | Some fn =>
               mkEnv (fn g (groups σ) (heap σ') (world (env σ)))
                 (calls (env σ) ++ [CallHook g])
           | None => env σ
           end.
Proof.
  destruct (groups σ !! name) as [g0|] eqn:Hname.
  - by rewrite (NewGroup_duplicate Dispose name cacheNum gtr σ g0 Hname).
  - rewrite (NewGroup_fresh Dispose name cacheNum gtr σ Hname).
    intros [= <- <-]. simpl. by split_and!.
Qed.

Lemma RegisterNewGroupHook_inv (fn : option (@Hook V World)) σ σ' :
  RegisterNewGroupHook fn σ = Ok σ' ->
  newGroupHook σ = None /\
  σ' = mkState fn (groups σ) (heap σ) (env σ).
Proof.
  unfold RegisterNewGroupHook. destruct (newGroupHook σ); [done|].
  by intros [= <-].
Qed.

Lemma Get_at_inv g key σ r σ' :
  Get_at g key σ = Ok (r, σ') ->
  exists G G' env',
    heap σ !! g = Some G /\
    Group_Get key G (env σ) = Ok (r, G', env') /\
    σ' = mkState (newGroupHook σ) (groups σ) (<[g := G']> (heap σ)) env'.
Proof.
  unfold Get_at. destruct (heap σ !! g) as [G|] eqn:HG; [|discriminate].
  destruct (Group_Get key G (env σ)) as [[[r0 G'] env']|] eqn:Hget; simpl;
    [|discriminate].
  intros [= <- <-]. by exists G, G', env'.
Qed.

Lemma step_registry_ok σ σ' :
  step Dispose σ σ' -> registry_ok σ -> registry_ok σ'.
Proof.
  intros Hstep [Hlive Hinj]. destruct Hstep as [fn σ σ' Hreg|name n gtr g σ σ' Hnew|g key r σ σ' Hget].
  - apply RegisterNewGroupHook_inv in Hreg as (_ & ->). by split.
  - apply NewGroup_inv in Hnew as (Hfresh & -> & _ & Hgroups & Hheap & _).
    assert (Hnot : forall name', groups σ !! name' <> Some (length (heap σ))).
    { intros name' Hname'. destruct (Hlive _ _ Hname') as (G & HG & _).
      apply lookup_lt_Some in HG. lia. }
    split.
    + intros name' g'. rewrite Hgroups, Hheap. intros Hlook.
      destruct (decide (name = name')) as [<-|Hne].
      * rewrite lookup_insert_eq in Hlook. injection Hlook as <-.
        exists (new_Group Dispose name n gtr). split; [|done].
        by rewrite lookup_app_r, Nat.sub_diag.
      * rewrite lookup_insert_ne in Hlook by done.
        destruct (Hlive _ _ Hlook) as (G & HG & HN). exists G. split; [|done].
        by apply lookup_app_l_Some.
    + intros name1 name2 g'. rewrite Hgroups. intros H1 H2.
      destruct (decide (name = name1)) as [<-|Hne1];
        destruct (decide (name = name2)) as [<-|Hne2]; [done| | |].
      * rewrite lookup_insert_eq in H1. injection H1 as <-.
        rewrite lookup_insert_ne in H2 by done. by destruct (Hnot name2).
      * rewrite lookup_insert_eq in H2. injection H2 as <-.
        rewrite lookup_insert_ne in H1 by done. by destruct (Hnot name1).
      * rewrite lookup_insert_ne in H1, H2 by done. by eapply Hinj.
  - apply Get_at_inv in Hget as (G & G' & env' & HG & Hget & ->).
    destruct r as [value err].
    apply Group_Get_inv in Hget as (_ & _ & Hname & _).
    split; [|done]. simpl. intros name' g' Hlook.
    destruct (Hlive _ _ Hlook) as (G0 & HG0 & HN0).
    destruct (decide (g = g')) as [<-|Hne].
    + exists G'. rewrite list_lookup_insert_eq by (by eapply lookup_lt_Some).
      split; [done|]. unfold Group_Name in *. congruence.
    + exists G0. by rewrite list_lookup_insert_ne.
Qed.

(** X7. The registry stays in order.  From process start, after any
    returning calls of [RegisterNewGroupHook], [NewGroup] and [Get] in any
    order, every registered name leads to a live group whose [Name] is
    that name, and no group is registered under two names. *)
Theorem registry_stays_in_order env σ :
  rtc (step Dispose) (start env) σ ->
  (forall name g, GetGroup name σ = Some g ->
     exists G, heap σ !! g = Some G /\ Group_Name G = name) /\
  (forall name1 name2 g,
     GetGroup name1 σ = Some g -> GetGroup name2 σ = Some g -> name1 = name2).
Proof.
  intros Hrun. change (registry_ok σ).
  assert (Hstart : registry_ok (start env)).
  { split; unfold start; simpl; intros *; by rewrite lookup_empty. }
  induction Hrun as [σ0|σ0 σ1 σ2 Hstep _ IH]; [done|].
  apply IH. by eapply step_registry_ok.
Qed.

Lemma step_keeps σ σ' name g (G : @Group V World) :
  step Dispose σ σ' ->
  GetGroup name σ = Some g ->
  heap σ !! g = Some G ->
  GetGroup name σ' = Some g /\
  exists G', heap σ' !! g = Some G' /\
    Group_Name G' = Group_Name G /\ getter G' = getter G.
Proof.
  unfold GetGroup.
  intros Hstep Hname HG. destruct Hstep as [fn σ σ' Hreg|name' n gtr g' σ σ' Hnew|g' key r σ σ' Hget].
  - apply RegisterNewGroupHook_inv in Hreg as (_ & ->). simpl. split; [done|]. by exists G.
  - apply NewGroup_inv in Hnew as (Hfresh & -> & _ & -> & -> & _). split.
    + rewrite lookup_insert_ne; [done|]. intros ->. congruence.
    + exists G. split; [|done]. by apply lookup_app_l_Some.
  - apply Get_at_inv in Hget as (G0 & G' & env' & HG0 & Hget & ->).
    destruct r as [value err].
    apply Group_Get_inv in Hget as (_ & _ & Hn & Hgt & _). simpl.
    split; [done|]. destruct (decide (g' = g)) as [->|Hne].
    + exists G'. rewrite list_lookup_insert_eq by (by eapply lookup_lt_Some).
      rewrite HG in HG0. injection HG0 as <-. unfold Group_Name. by split_and!.
    + exists G. by rewrite list_lookup_insert_ne.
Qed.

(** X8. Registrations are permanent.  Once [GetGroup] returns a group
    for a name it returns the same pointer after any further returning
    calls, and the group it points to keeps its name and its getter. *)
Theorem registrations_are_permanent σ σ' name g (G : @Group V World) :
  rtc (step Dispose) σ σ' ->
  GetGroup name σ = Some g ->
  heap σ !! g = Some G ->
  GetGroup name σ' = Some g /\
  exists G', heap σ' !! g = Some G' /\
    Group_Name G' = Group_Name G /\ getter G' = getter G.
Proof.
  intros Hrun. revert G. induction Hrun as [σ|σ σ1 σ2 Hstep _ IH]; intros G Hname HG.
  - split; [done|]. by exists G.
  - destruct (step_keeps _ _ _ _ _ Hstep Hname HG) as (Hname1 & G1 & HG1 & Hn1 & Hg1).
    destruct (IH G1 Hname1 HG1) as (Hname2 & G2 & HG2 & Hn2 & Hg2).
    split; [done|]. exists G2. split_and!; congruence.
Qed.

(** X9. An installed hook is permanent.  Once a creation hook is
    installed, no returning call replaces or removes it: every later
    registration panics, and [NewGroup] and [Get] leave it alone. *)
Theorem installed_hook_is_permanent σ σ' fn :
  rtc (step Dispose) σ σ' ->
  newGroupHook σ = Some fn ->
  newGroupHook σ' = Some fn /\
  forall again : option (@Hook V World),
    RegisterNewGroupHook again σ' = Panic "RegisterNewGroupHook called more than once".
Proof.
  intros Hrun Hhook.
  assert (Hkeep : newGroupHook σ' = Some fn).
  { induction Hrun as [σ|σ σ1 σ2 Hstep _ IH]; [done|]. apply IH.
    destruct Hstep as [fn0 σ σ1 Hreg|name n gtr g σ σ1 Hnew|g key r σ σ1 Hget].
    - apply RegisterNewGroupHook_inv in Hreg as (Hnone & _). congruence.
    - apply NewGroup_inv in Hnew as (_ & _ & -> & _). done.
    - apply Get_at_inv in Hget as (G & G' & env' & _ & _ & ->). done. }
  split; [done|]. intros again. unfold RegisterNewGroupHook. by rewrite Hkeep.
Qed.
End more_registry.

(** ** Creation, the hook and unknown names *)

Section more_creation.
Context {V World : Type} (Dispose : V -> World -> World * error).
Implicit Types (σ : @State V World) (gtr : @Getter V World)
  (fn : @Hook V World) (name key : string) (g : loc)
  (specs : list (string * Z * @Getter V World)).

(** What a returning run of creations did. *)
Lemma NewGroups_inv specs σ gs σ' :
  NewGroups Dispose specs σ = Ok (gs, σ') ->
  gs = seq (length (heap σ)) (length specs) /\
  newGroupHook σ' = newGroupHook σ /\
  (forall name, name ∉ names_of specs -> groups σ' !! name = groups σ !! name) /\
  calls (env σ') =
    calls (env σ) ++ match newGroupHook σ with
                     | Some _ => CallHook <$> gs
                     | None => []
                     end.
Proof.
  revert σ gs. induction specs as [|[[name cacheNum] gtr] specs IH]; intros σ gs.
  - simpl. intros [= <- <-]. split_and!; try done.
    destruct (newGroupHook σ); by rewrite app_nil_r.
  - cbn [NewGroups].
    destruct (NewGroup Dispose name cacheNum gtr σ) as [[g σ1]|] eqn:Hnew;
      [|discriminate].
    cbn [mbind result_bind].
    destruct (NewGroups Dispose specs σ1) as [[gs1 σ2]|] eqn:Hrun; [|discriminate].
    cbn [mbind result_bind]. intros [= <- <-].
    apply NewGroup_inv in Hnew as (_ & -> & Hhook1 & Hgroups1 & Hheap1 & Henv1).
    destruct (IH σ1 gs1 Hrun) as (-> & Hhook2 & Hout & Hcalls).
    rewrite Hheap1, length_app in *. simpl length in *. rewrite Nat.add_1_r in *.
    split_and!.
    + done.
    + congruence.
    + intros name' Hnot. unfold names_of in Hnot. rewrite fmap_cons in Hnot.
      apply not_elem_of_cons in Hnot as [Hne Hnot]. simpl in Hne.
      rewrite Hout by done. rewrite Hgroups1. by rewrite lookup_insert_ne.
    + rewrite Hcalls, Hhook1, Henv1.
      destruct (newGroupHook σ) as [fn|]; simpl; [|by rewrite app_nil_r].
      by rewrite <- app_assoc.
Qed.

(** X10. The hook runs for every group that is created.  With a hook
    installed, a returning run of [NewGroup] calls adds to the record of
    calls one hook call per created group, on that group, in the order of
    creation, and nothing else; with no hook installed it adds nothing. *)
Theorem hook_runs_for_every_new_group specs σ gs σ' :
  NewGroups Dispose specs σ = Ok (gs, σ') ->
  length gs = length specs /\
  (forall fn, newGroupHook σ = Some fn ->
     calls (env σ') = calls (env σ) ++ (CallHook <$> gs)) /\
  (newGroupHook σ = None -> calls (env σ') = calls (env σ)).
Proof.
  intros Hrun. apply NewGroups_inv in Hrun as (-> & _ & _ & Hcalls).
  split_and!.
  - apply length_seq.
  - intros fn Hfn. by rewrite Hfn in Hcalls.
  - intros Hnone. rewrite Hnone, app_nil_r in Hcalls. done.
Qed.

(** X11. An unknown name is the nil group.  After a returning run of
    [NewGroup] calls from process start, [GetGroup] of a name that was not
    among them returns nil, and using that result for a [Get] panics. *)
Theorem unknown_name_is_nil specs env gs σ' name :
  NewGroups Dispose specs (start env) = Ok (gs, σ') ->
  name ∉ names_of specs ->
  GetGroup name σ' = None /\
  forall key, Get_by_name name key σ' = Panic nil_dereference.
Proof.
  intros Hrun Hnot. apply NewGroups_inv in Hrun as (_ & _ & Hout & _).
  assert (Hnone : GetGroup name σ' = None).
  { unfold GetGroup. rewrite Hout by done. apply lookup_empty. }
  split; [done|]. intros key. unfold Get_by_name. by rewrite Hnone.
Qed.

(** X12. Registering the nil hook registers nothing.  With no hook
    installed, [RegisterNewGroupHook(nil)] returns and leaves the state as
    it was, so it can be repeated and a hook can still be installed
    afterwards; a group created in between runs no hook. *)
Theorem nil_hook_registers_nothing σ fn name cacheNum gtr :
  newGroupHook σ = None ->
  groups σ !! name = None ->
  RegisterNewGroupHook None σ = Ok σ /\
  (exists g σ1,
     NewGroup Dispose name cacheNum gtr σ = Ok (g, σ1) /\ env σ1 = env σ) /\
  RegisterNewGroupHook (Some fn) σ
    = Ok (mkState (Some fn) (groups σ) (heap σ) (env σ)).
Proof.
  intros Hnone Hfresh. unfold RegisterNewGroupHook. rewrite Hnone. split_and!.
  - destruct σ. simpl in *. by subst.
  - eexists _, _. split; [by apply NewGroup_fresh|]. simpl. by rewrite Hnone.
  - done.
Qed.

(** X13. A nil getter is accepted and fails on use.  [NewGroup] does not
    look at its getter: with a nil getter the group is created and
    registered, and every [Get] on it panics at the call of the getter,
    since its cache is empty and stays so. *)
Theorem nil_getter_panics_on_use name cacheNum σ :
  groups σ !! name = None ->
  exists g σ',
    NewGroup Dispose name cacheNum None σ = Ok (g, σ') /\
    GetGroup name σ' = Some g /\
    forall key, Get_by_name name key σ' = Panic nil_dereference.
Proof.
  intros Hfresh. eexists _, _. split; [by apply NewGroup_fresh|].
  assert (Hname : GetGroup name
            (mkState (newGroupHook σ) (<[name := length (heap σ)]> (groups σ))
               (heap σ ++ [new_Group Dispose name cacheNum None])
               match newGroupHook σ with
               | Some fn =>
                   mkEnv (fn (length (heap σ)) (groups σ)
                            (heap σ ++ [new_Group Dispose name cacheNum None])
                            (world (env σ)))
                     (calls (env σ) ++ [CallHook (length (heap σ))])
               | None => env σ
               end) = Some (length (heap σ))).
  { unfold GetGroup. simpl. apply lookup_insert_eq. }
  split; [exact Hname|]. intros key. unfold Get_by_name. rewrite Hname.
  unfold Get_at. simpl. rewrite lookup_app_r, Nat.sub_diag by done. simpl. done.
Qed.
End more_creation.

(** ** The atomic counter *)

(** X14. Atomic adds accumulate and commute.  The value after two [Add]
    calls is the sum, wrapped to [int64], whatever the order of the two
    calls; a value that [Add] has produced is within [int64]. *)
Theorem AtomicInt_Add_accumulates (i : AtomicInt) (a b : Z) :
  AtomicInt_Get (AtomicInt_Add (AtomicInt_Add i a) b) = Int64.wrap (i + a + b) /\
  AtomicInt_Add (AtomicInt_Add i a) b = AtomicInt_Add (AtomicInt_Add i b) a /\
  Int64.in_range (AtomicInt_Get (AtomicInt_Add i a)).
Proof.
  unfold AtomicInt_Add, AtomicInt_Get. split_and!.
  - unfold Int64.add at 2. apply add_wrap_l.
  - unfold Int64.add at 2 4. rewrite !add_wrap_l. f_equal. lia.
  - apply wrap_in_range.
Qed.

Lemma to_int_printable (z : Z) :
  Z.to_int z <> Decimal.Pos Decimal.Nil /\ Z.to_int z <> Decimal.Neg Decimal.Nil.
Proof.
  assert (Hnorm : forall d, Z.to_int z = d -> Decimal.norm d = d).
  { intros d <-. by rewrite <- DecimalZ.to_of, DecimalZ.of_to. }
  split; intros Hd; apply Hnorm in Hd; discriminate.
Qed.

(** X15. [String] prints the decimal numeral of the counter.  Reading
    the printed string back as a decimal integer gives the counter's
    value, so two counters print the same string only if they hold the
    same value. *)
Theorem AtomicInt_String_reads_back (i j : AtomicInt) :
  (Z.of_int <$> NilZero.int_of_string (AtomicInt_String i)) = Some (AtomicInt_Get i) /\
  (AtomicInt_String i = AtomicInt_String j -> AtomicInt_Get i = AtomicInt_Get j).
Proof.
  assert (Hback : forall k : AtomicInt,
            Z.of_int <$> NilZero.int_of_string (AtomicInt_String k)
            = Some (AtomicInt_Get k)).
  { intros k. unfold AtomicInt_String.
    destruct (to_int_printable (AtomicInt_Get k)) as [Hp Hn].
    rewrite NilZero.isi by done. simpl. by rewrite DecimalZ.of_to. }
  split; [apply Hback|].
  intros Heq. pose proof (Hback i) as Hi. rewrite Heq, Hback in Hi. by injection Hi.
Qed.

(** ** The further properties at work *)

(** X1 to X4 and X6 on the run "a", "c", "a" of the group [Demo.fresh 2
    Demo.loader]. *)
Lemma Get_calls_are_counted_witness :
  AtomicInt_Get (Stats.Gets (Stats Demo.g3)) = Int64.wrap 3 /\
  (exists st, Group_CacheStats Demo.g3 = Ok st /\ CacheStats.Gets st = Int64.wrap 3) /\
  (3 < 2 ^ 63 -> AtomicInt_Get (Stats.Gets (Stats Demo.g3)) = 3).
Proof.
  exact (Get_calls_are_counted Demo.Dispose "demo" 2 (Some Demo.loader)
           ["a"; "c"; "a"] Demo.env0 Demo.g3 Demo.env2 eq_refl).
Defined.

Lemma getter_runs_once_per_miss_witness :
  exists st,
    Group_CacheStats Demo.g3 = Ok st /\
    Z.of_nat (getter_calls (calls Demo.env2))
      = Z.of_nat (getter_calls (calls Demo.env0))
        + (CacheStats.Gets st - CacheStats.Hits st).
Proof.
  exact (getter_runs_once_per_miss Demo.Dispose "demo" 2 (Some Demo.loader)
           ["a"; "c"; "a"] Demo.env0 Demo.g3 Demo.env2 ltac:(simpl; lia) eq_refl).
Defined.

Lemma Dispose_runs_once_per_eviction_witness :
  exists st,
    Group_CacheStats Demo.g3 = Ok st /\
    Z.of_nat (dispose_calls (calls Demo.env2))
      = Z.of_nat (dispose_calls (calls Demo.env0)) + CacheStats.Evictions st.
Proof.
  exact (Dispose_runs_once_per_eviction Demo.Dispose "demo" 2 (Some Demo.loader)
           ["a"; "c"; "a"] Demo.env0 Demo.g3 Demo.env2 ltac:(simpl; lia) eq_refl).
Defined.

Lemma items_are_paid_by_misses_witness :
  exists st,
    Group_CacheStats Demo.g3 = Ok st /\
    cache_items (mainCache Demo.g3) = Ok (CacheStats.Items st) /\
    CacheStats.Items st = resident_count (mainCache Demo.g3) /\
    0 <= CacheStats.Items st /\
    CacheStats.Items st + CacheStats.Evictions st + CacheStats.Hits st
      <= CacheStats.Gets st.
Proof.
  exact (items_are_paid_by_misses Demo.Dispose "demo" 2 (Some Demo.loader)
           ["a"; "c"; "a"] Demo.env0 Demo.g3 Demo.env2 ltac:(simpl; lia) eq_refl).
Defined.

Lemma Get_keeps_name_getter_capacity_witness :
  Group_Name Demo.g3 = "demo" /\
  getter Demo.g3 = Some Demo.loader /\
  lru.MaxEntries <$> lru (mainCache Demo.g3) = Some 2.
Proof.
  exact (Get_keeps_name_getter_capacity ["a"; "c"; "a"] (Demo.fresh 2 Demo.loader)
           Demo.env0 Demo.g3 Demo.env2 eq_refl).
Defined.

(** X5 at work: the flaky getter fails once and is asked again. *)
Lemma failed_load_is_retried_witness :
  exists g1 g2 env2,
    Group_Get "k" (Demo.fresh 2 Demo.flaky) Demo.env0
      = Ok ((None, Some "busy"), g1, mkEnv ["tried"] [CallGetter "k"]) /\
    Group_Get "k" g1 (mkEnv ["tried"] [CallGetter "k"])
      = Ok ((Some "val:k", None), g2, env2) /\
    getter_calls (calls env2) = 2%nat /\
    Stats.CacheHits (Stats g2) = 0.
Proof.
  destruct (failed_load_is_retried Demo.Dispose "k" (Demo.fresh 2 Demo.flaky) Demo.env0
              Demo.flaky None "busy" ["tried"] "val:k" ["tried"]
              (cache_ok_init Demo.Dispose 2 zero_cache) eq_refl eq_refl eq_refl eq_refl)
    as (g1 & g2 & env2 & H1 & H2 & Hcalls & Hhits & _).
  exists g1, g2, env2. by split_and!.
Defined.

(** X7 to X9 at work: a hook is installed, then "a" is created. *)
Lemma registry_stays_in_order_witness :
  exists σ,
    rtc (step Demo.Dispose) (start Demo.env0) σ /\
    GetGroup "a" σ = Some 0%nat /\
    (forall name g, GetGroup name σ = Some g ->
       exists G, heap σ !! g = Some G /\ Group_Name G = name) /\
    (forall name1 name2 g,
       GetGroup name1 σ = Some g -> GetGroup name2 σ = Some g -> name1 = name2).
Proof.
  pose proof (NewGroup_fresh Demo.Dispose "a" 2 (Some Demo.loader)
                (start Demo.env0) (lookup_empty _)) as Hnew.
  eexists. split; [|split].
  - apply rtc_once. eapply step_new. exact Hnew.
  - apply lookup_insert_eq.
  - apply (registry_stays_in_order Demo.Dispose Demo.env0).
    apply rtc_once. eapply step_new. exact Hnew.
Defined.

Lemma registrations_are_permanent_witness :
  exists σ',
    rtc (step Demo.Dispose) Demo.state1 σ' /\
    GetGroup "b" σ' = Some 1%nat /\
    GetGroup "a" σ' = Some 0%nat /\
    exists G', heap σ' !! 0%nat = Some G' /\
      Group_Name G' = "a" /\ getter G' = Some Demo.loader.
Proof.
  pose proof (NewGroup_fresh Demo.Dispose "b" 1 (Some Demo.failing)
                Demo.state1 eq_refl) as Hnew.
  assert (Hrun : rtc (step Demo.Dispose) Demo.state1 _)
    by (apply rtc_once; eapply step_new; exact Hnew).
  eexists. split; [exact Hrun|]. split; [apply lookup_insert_eq|].
  exact (registrations_are_permanent Demo.Dispose _ _ "a" 0%nat
           (new_Group Demo.Dispose "a" 2 (Some Demo.loader)) Hrun eq_refl eq_refl).
Defined.

Lemma installed_hook_is_permanent_witness :
  exists σ',
    rtc (step Demo.Dispose) Demo.state1 σ' /\
    newGroupHook σ' = Some Demo.probe /\
    forall again : option (@Hook Demo.V Demo.World),
      RegisterNewGroupHook again σ'
      = Panic "RegisterNewGroupHook called more than once".
Proof.
  pose proof (NewGroup_fresh Demo.Dispose "b" 1 (Some Demo.failing)
                Demo.state1 eq_refl) as Hnew.
  assert (Hrun : rtc (step Demo.Dispose) Demo.state1 _)
    by (apply rtc_once; eapply step_new; exact Hnew).
  eexists. split; [exact Hrun|].
  exact (installed_hook_is_permanent Demo.Dispose _ _ Demo.probe Hrun eq_refl).
Defined.

(** X10 and X11 at work: "b" and "c" are created, with the hook
    [Demo.probe] installed for X10 and from process start for X11. *)
Lemma hook_runs_for_every_new_group_witness :
  exists gs σ',
    NewGroups Demo.Dispose [("b", 1, Some Demo.loader); ("c", 3, Some Demo.failing)]
      Demo.state1 = Ok (gs, σ') /\
    length gs = 2%nat /\
    calls (env σ') = calls (env Demo.state1) ++ (CallHook <$> gs).
Proof.
  destruct (NewGroups_fresh Demo.Dispose
              [("b", 1, Some Demo.loader); ("c", 3, Some Demo.failing)] Demo.state1)
    as (σ' & Hrun & _).
  - apply (bool_decide_unpack _). by vm_compute.
  - intros name' Hin. unfold names_of in Hin. simpl in Hin.
    apply elem_of_cons in Hin as [->|Hin]; [reflexivity|].
    apply list_elem_of_singleton in Hin as ->. reflexivity.
  - destruct (hook_runs_for_every_new_group Demo.Dispose _ _ _ _ Hrun)
      as (Hlen & Hhook & _).
    eexists _, σ'. split; [exact Hrun|]. split; [exact Hlen|].
    by apply (Hhook Demo.probe).
Defined.

Lemma unknown_name_is_nil_witness :
  exists gs σ',
    NewGroups Demo.Dispose [("b", 1, Some Demo.loader); ("c", 3, Some Demo.failing)]
      (start Demo.env0) = Ok (gs, σ') /\
    GetGroup "a" σ' = None /\
    forall key, Get_by_name "a" key σ' = Panic nil_dereference.
Proof.
  destruct (NewGroups_fresh Demo.Dispose
              [("b", 1, Some Demo.loader); ("c", 3, Some Demo.failing)]
              (start Demo.env0))
    as (σ' & Hrun & _).
  - apply (bool_decide_unpack _). by vm_compute.
  - intros name' _. apply lookup_empty.
  - eexists _, σ'. split; [exact Hrun|].
    apply (unknown_name_is_nil Demo.Dispose _ Demo.env0 _ σ' "a" Hrun).
    apply (bool_decide_unpack _). by vm_compute.
Defined.

(** X12 at work, on the empty registry. *)
Lemma nil_hook_registers_nothing_witness :
  RegisterNewGroupHook None Demo.state0 = Ok Demo.state0 /\
  (exists g σ1,
     NewGroup Demo.Dispose "a" 2 (Some Demo.loader) Demo.state0 = Ok (g, σ1) /\
     env σ1 = env Demo.state0) /\
  RegisterNewGroupHook (Some Demo.probe) Demo.state0 = Ok Demo.hooked.
Proof.
  exact (nil_hook_registers_nothing Demo.Dispose Demo.state0 Demo.probe "a" 2
           (Some Demo.loader) eq_refl (lookup_empty _)).
Defined.

(** X13 at work: a group "n" with a nil getter. *)
Lemma nil_getter_panics_on_use_witness :
  exists g σ',
    NewGroup Demo.Dispose "n" 4 None Demo.state0 = Ok (g, σ') /\
    GetGroup "n" σ' = Some g /\
    forall key, Get_by_name "n" key σ' = Panic nil_dereference.
Proof.
  exact (nil_getter_panics_on_use Demo.Dispose "n" 4 Demo.state0 (lookup_empty _)).
Defined.

(** ** The nil value *)

Section nil_value.
Context {V World : Type} (Dispose : V -> World -> World * error).
Implicit Types (c : @cache V World) (env : @Env V World) (v x : V)
  (g : @Group V World) (f : @GetterFunc V World)
  (l : lru.Cache V (@HookState V World)) (key : string).

(** Adding the nil value to a wrapper in order with a capacity of one or
    more returns: the victim, if there is one, is an older entry. *)
Lemma cache_add_nil key c env l :
  lru c = Some l ->
  lru.OnEvicted l = Some (onEvicted Dispose) ->
  Forall (fun e => is_Some (lru.value e)) (lru.ll l) ->
  lru.find key (lru.ll l) = None ->
  1 <= lru.MaxEntries l ->
  exists c' env',
    cache_add key None c env = Ok (c', env') /\
    cache_lookup key c' = Some None.
Proof.
  intros Hl Hh Hall Hf Hcap.
  assert (Hres : forall c' env', cache_add key None c env = Ok (c', env') ->
                 cache_lookup key c' = Some None).
  { intros c' env' Hadd. by eapply cache_add_resident. }
  destruct (Z.le_gt_cases (Z.of_nat (S (length (lru.ll l)))) (lru.MaxEntries l))
    as [Hroom|Hfull].
  - eexists _, _. split; [by eapply cache_add_room|].
    eapply Hres. by eapply cache_add_room.
  - destruct (lru.ll l) as [|e es] eqn:Hll; [simpl in Hfull; lia|].
    destruct (lru.pop_oldest (e :: es)) as [[rest old]|] eqn:Hp;
      [|by apply pop_oldest_None in Hp].
    apply pop_oldest_Some in Hp.
    assert (Hold : is_Some (lru.value old)).
    { rewrite Hp in Hall. apply Forall_app in Hall as [_ Hold].
      by inversion Hold. }
    destruct old as [k0 value0]. destruct Hold as [x Hx]. simpl in Hx. subst value0.
    assert (Hadd : cache_add key None c env =
              Ok (mkCacheW (Some (lru.set_ll (lru.mkEntry key None :: rest) l))
                    (nhit c) (nget c) (Int64.add (nevict c) 1),
                  (call_Dispose Dispose x env).2)).
    { eapply cache_add_evict; try done.
      - by rewrite Hll.
      - by rewrite Hll.
      - rewrite Hll, Hp. done. }
    eexists _, _. split; [exact Hadd|]. by eapply Hres.
Qed.

(** X16. A nil value poisons its key.  On a wrapper in order with a
    capacity of one or more, when the getter returns the nil [Value] with
    a nil error for an absent key, [Get] stores nil under the key and
    returns [(nil, nil)]; the next [Get] of that key finds the entry and
    panics in the type assertion of [cache.get], getter or no getter. *)
Theorem nil_value_poisons_its_key key g env f w l :
  cache_ok Dispose (mainCache g) ->
  lru (mainCache g) = Some l ->
  1 <= lru.MaxEntries l ->
  cache_lookup key (mainCache g) = None ->
  getter g = Some f ->
  f key (world env) = ((None, None), w) ->
  exists g1 env1,
    Group_Get key g env = Ok ((None, None), g1, env1) /\
    cache_lookup key (mainCache g1) = Some None /\
    forall env2, Group_Get key g1 env2 = Panic nil_conversion.
Proof.
  intros [(l0 & Hl0 & Hh) Hall] Hl Hcap Hnone Hg Hload.
  rewrite Hl in Hl0. injection Hl0 as <-.
  unfold cache_lookup, entries in Hnone, Hall. rewrite Hl in Hnone, Hall.
  set (c1 := mkCacheW (Some l) (nhit (mainCache g))
               (Int64.add (nget (mainCache g)) 1) (nevict (mainCache g))).
  destruct (cache_add_nil key c1 (mkEnv w (calls env ++ [CallGetter key])) l
              eq_refl Hh Hall Hnone Hcap) as (c' & env1 & Hadd & Hres).
  exists (mkGroup (name g) (getter g) c'
            (Stats.mk (Int64.add (Stats.Gets (Stats g)) 1) (Stats.CacheHits (Stats g)))),
    env1.
  split_and!.
  - erewrite Group_Get_load by done. fold c1. by rewrite Hadd.
  - done.
  - intros env2. destruct (cache_lookup_Some _ _ _ Hres) as (l' & Hl' & Hf').
    unfold Group_Get. simpl. by erewrite cache_get_nil.
Qed.
End nil_value.

(** X16 at work: the getter [Demo.hollow]. *)
Lemma nil_value_poisons_its_key_witness :
  exists g1 env1,
    Group_Get "a" (Demo.fresh 1 Demo.hollow) Demo.env0 = Ok ((None, None), g1, env1) /\
    cache_lookup "a" (mainCache g1) = Some None /\
    forall env2, Group_Get "a" g1 env2 = Panic nil_conversion.
Proof.
  exact (nil_value_poisons_its_key Demo.Dispose "a" (Demo.fresh 1 Demo.hollow)
           Demo.env0 Demo.hollow [] _
           (cache_ok_init Demo.Dispose 1 zero_cache) eq_refl ltac:(simpl; lia)
           eq_refl eq_refl eq_refl).
Defined.
